(** * zubbi.scraper.tenant_parser: the tenant parser, embedded and verified

    The development follows [src/zubbi/scraper/tenant_parser.py]:
    - [Py]: the Python values a YAML document loads to, and the handful of
      built-in operations the parser applies to them;
    - [Sha1]: [hashlib.sha1(...).hexdigest()], written over 32-bit words;
    - [Parser]: the class [TenantParser] ([parse], [_update_repo_map],
      [_extract_project], the two loaders), as state-passing code over the
      two accumulators [repo_map] and [tenants];
    - the theorems about them.

    Calls to [LOGGER] do not influence any value the parser computes and are
    left out. *)

From Stdlib Require Import ZArith String Ascii List Lia.
From stdpp Require Import base list strings.
Import ListNotations.
Local Open Scope string_scope.
Local Open Scope list_scope.
Set Warnings "-register-all".

(** ** Python values *)

Module Py.

(** The values [yaml.load] produces. A Python [str] is represented by the
    bytes of its UTF-8 encoding; mappings carry string keys in insertion
    order (the shape of every mapping the parser looks into); floats do not
    occur. Nor do the other values a YAML document can load to: dates,
    binary data, sets, mappings keyed by something else than a string, and
    strings with a lone surrogate, which have no UTF-8 encoding. *)
Inductive pyval : Type :=
| PNone
| PBool (b : bool)
| PInt (z : Z)
| PStr (s : string)
| PList (l : list pyval)
| PDict (d : list (string * pyval)).

(** Modelled from the spec: [zubbi.scraper.exceptions] is not part of the
    sources at hand; [CheckoutError] and [ScraperConfigurationError] are the
    checkout error and the configuration error of the spec, each with its
    message. The other constructors are the built-in exceptions the parser
    can meet; [Unmodelled] marks a construct outside the fragment embedded
    here. *)
Inductive exn : Type :=
| KeyError (key : string)
| IndexError
| TypeError
| AttributeError
| ValueError
| YAMLError
| OSError
| CheckoutError (msg : string)
| ScraperConfigurationError (msg : string)
| Unmodelled.

Inductive result (A : Type) : Type :=
| Ok (a : A)
| Raise (e : exn).
Arguments Ok {A} a.
Arguments Raise {A} e.

(** [d.get(k)] on the entries of a mapping. *)
Fixpoint dict_get {V : Type} (k : string) (d : list (string * V)) : option V :=
  match d with
  | [] => None
  | (k', v) :: d' => if String.eqb k k' then Some v else dict_get k d'
  end.

(** [d[k] = v]: an existing key keeps its place, a new one goes last. *)
Fixpoint dict_set {V : Type} (k : string) (v : V) (d : list (string * V))
  : list (string * V) :=
  match d with
  | [] => [(k, v)]
  | (k', v') :: d' =>
      if String.eqb k k' then (k', v) :: d' else (k', v') :: dict_set k v d'
  end.

(** [bool(v)]. *)
Definition truthy (v : pyval) : bool :=
  match v with
  | PNone => false
  | PBool b => b
  | PInt z => negb (Z.eqb z 0)
  | PStr s => negb (String.eqb s "")
  | PList l => match l with [] => false | _ => true end
  | PDict d => match d with [] => false | _ => true end
  end.

(** [v[k]] with a string subscript: only a mapping accepts it. *)
Definition getitem (v : pyval) (k : string) : result pyval :=
  match v with
  | PDict d => match dict_get k d with
               | Some x => Ok x
               | None => Raise (KeyError k)
               end
  | _ => Raise TypeError
  end.

(** [v.get(k)]: only a mapping has the method; a missing key gives [None]. *)
Definition get (v : pyval) (k : string) : result pyval :=
  match v with
  | PDict d => Ok (match dict_get k d with Some x => x | None => PNone end)
  | _ => Raise AttributeError
  end.

(** [v.items()]. *)
Definition items (v : pyval) : result (list (string * pyval)) :=
  match v with
  | PDict d => Ok d
  | _ => Raise AttributeError
  end.

(** A byte [10xxxxxx] continues the UTF-8 character before it. *)
Definition is_continuation (c : ascii) : bool :=
  let n := N_of_ascii c in (128 <=? n)%N && (n <? 192)%N.

Definition continues (s : string) : bool :=
  match s with
  | String c _ => is_continuation c
  | EmptyString => false
  end.

(** The characters of a [str], each one a [str] of its own. *)
Fixpoint chars (s : string) : list string :=
  match s with
  | EmptyString => []
  | String c s' =>
      match chars s' with
      | hd :: tl =>
          if continues s' then String c hd :: tl
          else String c EmptyString :: hd :: tl
      | [] => [String c EmptyString]
      end
  end.

(** The elements a [for] loop over [v] visits. *)
Definition iter (v : pyval) : result (list pyval) :=
  match v with
  | PList l => Ok l
  | PDict d => Ok (map (fun kv => PStr (fst kv)) d)
  | PStr s => Ok (map PStr (chars s))
  | _ => Raise TypeError
  end.

(** [s.startswith(p)] and the substring test [p in s]. *)
Fixpoint startswith (p s : string) : bool :=
  match p, s with
  | EmptyString, _ => true
  | String a p', String b s' => Ascii.eqb a b && startswith p' s'
  | String _ _, EmptyString => false
  end.

Fixpoint substring_of (p s : string) : bool :=
  startswith p s ||
  match s with
  | EmptyString => false
  | String _ s' => substring_of p s'
  end.

(** [v == k] for a string [k]: no value of another type equals a [str]. *)
Definition eq_str (k : string) (v : pyval) : bool :=
  match v with
  | PStr s => String.eqb k s
  | _ => false
  end.

(** [k in v] for a string [k]. *)
Definition contains_str (k : string) (v : pyval) : result bool :=
  match v with
  | PList l => Ok (existsb (eq_str k) l)
  | PDict d => Ok (match dict_get k d with Some _ => true | None => false end)
  | PStr s => Ok (substring_of k s)
  | _ => Raise TypeError
  end.

(** Lists and mappings are unhashable and cannot key a [dict]. *)
Definition hashable (v : pyval) : bool :=
  match v with
  | PList _ | PDict _ => false
  | _ => true
  end.

(** The integer a [bool] or [int] stands for. *)
Definition num (v : pyval) : option Z :=
  match v with
  | PBool b => Some (if b then 1 else 0)%Z
  | PInt z => Some z
  | _ => None
  end.

(** [a == b] between hashable values, as a [dict] compares its keys:
    [True == 1] and [False == 0]. *)
Definition key_eqb (a b : pyval) : bool :=
  match a, b with
  | PNone, PNone => true
  | PStr s, PStr t => String.eqb s t
  | _, _ =>
      match num a, num b with
      | Some x, Some y => Z.eqb x y
      | _, _ => false
      end
  end.

End Py.

(** ** [hashlib.sha1]

    SHA-1 (FIPS 180-4) over 32-bit words kept in [Z]; every addition and
    rotation is cut back to 32 bits explicitly. *)

Module Sha1.

Local Open Scope Z_scope.

Definition w32 (x : Z) : Z := Z.land x 0xFFFFFFFF.

Definition add32 (x y : Z) : Z := w32 (x + y).

Definition rotl (n x : Z) : Z :=
  w32 (Z.lor (Z.shiftl x n) (Z.shiftr x (32 - n))).

Definition not32 (x : Z) : Z := Z.lxor x 0xFFFFFFFF.

(** [str.encode(s)]: the bytes of the string. *)
Definition encode (s : string) : list Z :=
  map (fun c => Z.of_N (N_of_ascii c)) (list_ascii_of_string s).

(** The eight bytes of the 64-bit big-endian bit count. *)
Definition be64 (n : Z) : list Z :=
  map (fun i => Z.land (Z.shiftr n (8 * (7 - Z.of_nat i))) 0xFF) (seq 0 8).

(** Padding: a single [0x80], zeros up to 56 modulo 64, the bit count. *)
Definition pad (msg : list Z) : list Z :=
  let len := Z.of_nat (length msg) in
  msg ++ [0x80] ++ repeat 0 (Z.to_nat ((55 - len) mod 64)) ++ be64 (8 * len).

(** Big-endian 32-bit words. *)
Fixpoint words (bs : list Z) : list Z :=
  match bs with
  | b0 :: b1 :: b2 :: b3 :: rest =>
      Z.lor (Z.shiftl b0 24) (Z.lor (Z.shiftl b1 16) (Z.lor (Z.shiftl b2 8) b3))
      :: words rest
  | _ => []
  end.

(** [n] blocks of sixteen words. *)
Fixpoint blocks (n : nat) (ws : list Z) : list (list Z) :=
  match n with
  | O => []
  | S n' => firstn 16 ws :: blocks n' (skipn 16 ws)
  end.

(** The message schedule: [n] more words appended to [w]. *)
Fixpoint schedule (n : nat) (w : list Z) : list Z :=
  match n with
  | O => w
  | S n' =>
      let t := length w in
      let at_ (k : nat) := nth (t - k) w 0 in
      schedule n'
        (w ++ [rotl 1 (Z.lxor (Z.lxor (at_ 3%nat) (at_ 8%nat))
                              (Z.lxor (at_ 14%nat) (at_ 16%nat)))])
  end.

Record state : Type := State { ha : Z; hb : Z; hc : Z; hd : Z; he : Z }.

Definition init : state :=
  State 0x67452301 0xEFCDAB89 0x98BADCFE 0x10325476 0xC3D2E1F0.

(** The round function and constant of round [t]. *)
Definition f (t : nat) (b c d : Z) : Z :=
  if (t <? 20)%nat then Z.lor (Z.land b c) (Z.land (not32 b) d)
  else if (t <? 40)%nat then Z.lxor (Z.lxor b c) d
  else if (t <? 60)%nat then
    Z.lor (Z.lor (Z.land b c) (Z.land b d)) (Z.land c d)
  else Z.lxor (Z.lxor b c) d.

Definition k (t : nat) : Z :=
  if (t <? 20)%nat then 0x5A827999
  else if (t <? 40)%nat then 0x6ED9EBA1
  else if (t <? 60)%nat then 0x8F1BBCDC
  else 0xCA62C1D6.

Definition round (s : state) (tw : nat * Z) : state :=
  let '(t, w) := tw in
  let temp :=
    add32 (add32 (add32 (add32 (rotl 5 (ha s)) (f t (hb s) (hc s) (hd s)))
                        (he s)) (k t)) w in
  State temp (ha s) (rotl 30 (hb s)) (hc s) (hd s).

Definition compress (h : state) (block : list Z) : state :=
  let w := schedule 64 block in
  let s := fold_left round (combine (seq 0 80) w) h in
  State (add32 (ha h) (ha s)) (add32 (hb h) (hb s)) (add32 (hc h) (hc s))
        (add32 (hd h) (hd s)) (add32 (he h) (he s)).

Definition digest (msg : list Z) : state :=
  let ws := words (pad msg) in
  fold_left compress (blocks (length ws / 16) ws) init.

Definition hex_alphabet : list ascii :=
  list_ascii_of_string "0123456789abcdef".

Definition hexdigit (n : Z) : ascii :=
  nth (Z.to_nat (Z.land n 15)) hex_alphabet "0"%char.

(** Eight lowercase hexadecimal digits of a word, then the rest. *)
Definition hex32 (w : Z) (rest : string) : string :=
  String (hexdigit (Z.shiftr w 28)) (String (hexdigit (Z.shiftr w 24))
  (String (hexdigit (Z.shiftr w 20)) (String (hexdigit (Z.shiftr w 16))
  (String (hexdigit (Z.shiftr w 12)) (String (hexdigit (Z.shiftr w 8))
  (String (hexdigit (Z.shiftr w 4)) (String (hexdigit w) rest))))))).

(** [hashlib.sha1(msg).hexdigest()]. *)
Definition hexdigest (msg : list Z) : string :=
  let s := digest msg in
  hex32 (ha s) (hex32 (hb s) (hex32 (hc s) (hex32 (hd s)
    (hex32 (he s) EmptyString)))).

End Sha1.


(** ** The class [TenantParser] *)

Module Parser.

Import Py.

(** Modelled from the spec: [zubbi.models.ZuulTenant] is not part of the
    sources at hand; the spec describes the normalized tenant as a record
    with the fields [id], [name] and [scrape_time]. The parser only stores
    the scrape time, which is kept as a number of seconds. *)
Record ZuulTenant : Type := mkZuulTenant {
  meta_id : string;
  tenant_name : string;
  tenant_scrape_time : Z
}.

(** What a Python list may hold here: a loaded value or a tenant object. *)
Inductive pyobj : Type :=
| OVal (v : pyval)
| OTenant (t : ZuulTenant).

(** [{"jobs": [], "roles": []}]. *)
Record repo_entry : Type := mkEntry {
  jobs : list pyobj;
  roles : list pyobj
}.

Definition empty_entry : repo_entry := mkEntry [] [].

(** [self.repo_map]: a [dict] in insertion order, keyed by whatever hashable
    value names the project. *)
Abbreviation RepoTenantMap := (list (pyval * repo_entry)).

(** The attributes of [self]. *)
Record TenantParser : Type := mkParser {
  sources : pyval;
  scrape_time : Z;
  repo_map : RepoTenantMap;
  tenants : list ZuulTenant
}.

Definition set_repo_map (m : RepoTenantMap) (self : TenantParser) :=
  mkParser (sources self) (scrape_time self) m (tenants self).

Definition set_tenants (l : list ZuulTenant) (self : TenantParser) :=
  mkParser (sources self) (scrape_time self) (repo_map self) l.

(** *** Methods run on [self] and may raise

    An exception leaves [self] as mutated so far. *)

Definition M (A : Type) : Type := TenantParser -> result A * TenantParser.

Definition ret {A : Type} (a : A) : M A := fun self => (Ok a, self).

Definition bind {A B : Type} (c : M A) (k : A -> M B) : M B :=
  fun self =>
    match c self with
    | (Ok a, self') => k a self'
    | (Raise e, self') => (Raise e, self')
    end.

Definition lift {A : Type} (r : result A) : M A := fun self => (r, self).

Definition read {A : Type} (field : TenantParser -> A) : M A :=
  fun self => (Ok (field self), self).

Definition update (f : TenantParser -> TenantParser) : M unit :=
  fun self => (Ok tt, f self).

Declare Scope py_scope.
Delimit Scope py_scope with py.
Notation "x <- c ;; k" := (bind c (fun x => k))
  (at level 100, c at next level, right associativity) : py_scope.
Notation "c ;; k" := (bind c (fun _ => k))
  (at level 100, right associativity) : py_scope.
Local Open Scope py_scope.

(** A [for] loop without [break]. *)
Fixpoint for_each {A : Type} (body : A -> M unit) (l : list A) : M unit :=
  match l with
  | [] => ret tt
  | x :: l' => body x ;; for_each body l'
  end.

(** *** The repository map *)

Fixpoint repo_get (k : pyval) (m : RepoTenantMap) : option repo_entry :=
  match m with
  | [] => None
  | (k', e) :: m' => if key_eqb k k' then Some e else repo_get k m'
  end.

Fixpoint repo_alter (g : repo_entry -> repo_entry) (k : pyval)
  (m : RepoTenantMap) : RepoTenantMap :=
  match m with
  | [] => []
  | (k', e) :: m' =>
      if key_eqb k k' then (k', g e) :: m' else (k', e) :: repo_alter g k m'
  end.

(** [self.repo_map.setdefault(k, {"jobs": [], "roles": []})]; the entry it
    returns is the one stored under [k], reached again through [k]. *)
Definition setdefault (k : pyval) : M unit :=
  if hashable k then
    update (fun self =>
      match repo_get k (repo_map self) with
      | Some _ => self
      | None => set_repo_map (repo_map self ++ [(k, empty_entry)]) self
      end)
  else lift (Raise TypeError).

(** [entry["jobs"].append(x)] and [entry["roles"].append(x)]. *)
Definition append_jobs (x : pyobj) (e : repo_entry) : repo_entry :=
  mkEntry (jobs e ++ [x]) (roles e).

Definition append_roles (x : pyobj) (e : repo_entry) : repo_entry :=
  mkEntry (jobs e) (roles e ++ [x]).

Definition entry_append (g : pyobj -> repo_entry -> repo_entry)
  (k : pyval) (x : pyobj) : M unit :=
  update (fun self => set_repo_map (repo_alter (g x) k (repo_map self)) self).

(** [_extract_project]: the name and the exclusion list of a project. *)
Definition _extract_project (project : pyval) : result (pyval * pyval) :=
  match project with
  | PDict d =>
      match d with
      | [] => Raise IndexError
      | (project_name, _) :: _ =>
          Ok (PStr project_name,
              match dict_get "exclude" d with
              | Some exclude => exclude
              | None => PList []
              end)
      end
  | _ => Ok (project, PList [])
  end.

(** [_update_repo_map]. *)
Definition _update_repo_map (project : pyval) (tenant : pyobj) : M unit :=
  extracted <- lift (_extract_project project) ;;
  let '(project_name, exclude) := extracted in
  setdefault project_name ;;
  excluded <- lift (contains_str "jobs" exclude) ;;
  (if negb excluded then entry_append append_jobs project_name tenant
   else ret tt) ;;
  entry_append append_roles project_name tenant.

(** *** [parse] *)

(** [hashlib.sha1(str.encode(tenant_name)).hexdigest()]. *)
Definition tenant_id (name : string) : string :=
  Sha1.hexdigest (Sha1.encode name).

Definition sha1_hexdigest (tenant_name : pyval) : result string :=
  match tenant_name with
  | PStr s => Ok (tenant_id s)
  | _ => Raise TypeError
  end.

Definition as_str (v : pyval) : string :=
  match v with PStr s => s | _ => "" end.

Inductive ctl : Type := Continue | Break.

(** One turn of the loop of [parse]. *)
Definition parse_record (tenant_src : pyval) : M ctl :=
  tenant_obj <- lift (getitem tenant_src "tenant") ;;
  source <- lift (getitem tenant_obj "source") ;;
  tenant_obj' <- lift (getitem tenant_src "tenant") ;;
  tenant_name <- lift (getitem tenant_obj' "name") ;;
  github_source <- lift (get source "github") ;;
  if negb (truthy github_source) then ret Break
  else
    uuid <- lift (sha1_hexdigest tenant_name) ;;
    time <- read scrape_time ;;
    let tenant := mkZuulTenant uuid (as_str tenant_name) time in
    categories <- lift (items github_source) ;;
    for_each (fun '(project_type, projects) =>
                projects' <- lift (iter projects) ;;
                for_each (fun project =>
                            _update_repo_map project (OVal tenant_name))
                         projects')
             categories ;;
    update (fun self => set_tenants (tenants self ++ [tenant]) self) ;;
    ret Continue.

(** The loop of [parse], with its [break]. *)
Fixpoint parse_loop (srcs : list pyval) : M unit :=
  match srcs with
  | [] => ret tt
  | tenant_src :: rest =>
      c <- parse_record tenant_src ;;
      match c with
      | Break => ret tt
      | Continue => parse_loop rest
      end
  end.

Definition parse : M (RepoTenantMap * list ZuulTenant) :=
  srcs <- read sources ;;
  srcs' <- lift (iter srcs) ;;
  parse_loop srcs' ;;
  m <- read repo_map ;;
  l <- read tenants ;;
  ret (m, l).

(** *** Loading the sources *)

(** Modelled from the spec: the repository checkout is an object of a class
    that is not part of the sources at hand. The spec gives its interface:
    [list_directory(path)] returns a mapping from entry name to metadata and
    fails with a checkout error if the path does not exist;
    [check_out_file(path)] returns the file contents and fails with a
    checkout error if the file is missing or empty; [repo_name] identifies
    the repository. *)
Record Repo : Type := mkRepo {
  repo_name : string;
  list_directory : string -> result (list (string * pyval));
  check_out_file : string -> result string
}.

Definition TENANTS_DIRECTORY : string := "tenants".

Definition endswith_sep (s : string) : bool :=
  match rev (list_ascii_of_string s) with
  | c :: _ => Ascii.eqb c "/"
  | [] => false
  end.

(** [os.path.join(a, *p)] of [posixpath]. *)
Definition path_join (a : string) (p : list string) : string :=
  fold_left
    (fun path b =>
       if startswith "/" b then b
       else if String.eqb path "" || endswith_sep path then path +:+ b
       else path +:+ "/" +:+ b)
    p a.

(** [template.format(arg, ...)] for templates whose replacement fields are all
    the automatic [{}]; [{{] and [}}] are the escaped braces. Any other
    character, [%] included, is copied. *)
Fixpoint format (template : string) (args : list string) : result string :=
  let copy (c : ascii) (rest : string) (args' : list string) :=
    match format rest args' with
    | Ok out => Ok (String c out)
    | Raise e => Raise e
    end in
  match template with
  | EmptyString => Ok EmptyString
  | String c rest =>
      if Ascii.eqb c "{" then
        match rest with
        | String c' rest' =>
            if Ascii.eqb c' "{" then copy c rest' args
            else if Ascii.eqb c' "}" then
              match args with
              | a :: args' =>
                  match format rest' args' with
                  | Ok out => Ok (a +:+ out)
                  | Raise e => Raise e
                  end
              | [] => Raise IndexError
              end
            else Raise Unmodelled
        | EmptyString => Raise ValueError
        end
      else if Ascii.eqb c "}" then
        match rest with
        | String c' rest' =>
            if Ascii.eqb c' "}" then copy c rest' args else Raise ValueError
        | EmptyString => Raise ValueError
        end
      else copy c rest args
  end.

Section Loaders.

(** [yaml.load] on the text of a document, and [open(path).read()]: both
    belong to the environment. *)
Variable yaml_load : string -> result pyval.
Variable open_read : string -> result string.

Definition _load_tenant_sources_from_file (sources_file : string)
  : result pyval :=
  match open_read sources_file with
  | Ok f => yaml_load f
  | Raise e => Raise e
  end.

(** [obj[k] = v] with a string key: only a mapping accepts it. *)
Definition setitem (obj : pyval) (k : string) (v : pyval) : result pyval :=
  match obj with
  | PDict d => Ok (PDict (dict_set k v d))
  | _ => Raise TypeError
  end.

Definition rbind {A B : Type} (r : result A) (k : A -> result B) : result B :=
  match r with
  | Ok a => k a
  | Raise e => Raise e
  end.

(** The body of the [try] block, for one tenant directory. *)
Definition load_tenant (sources_repo : Repo) (tenant : string)
  : result pyval :=
  rbind (check_out_file sources_repo
           (path_join "tenants" [tenant; "sources.yaml"]))
    (fun sources_yaml =>
  rbind (check_out_file sources_repo
           (path_join "tenants" [tenant; "settings.yaml"]))
    (fun settings_yaml =>
  rbind (yaml_load settings_yaml) (fun settings =>
  rbind (yaml_load sources_yaml) (fun source =>
  rbind (setitem settings "source" source) (fun settings' =>
  Ok (PDict [("tenant", settings')])))))).

(** The loop over [tenants.keys()]; a [CheckoutError] skips the tenant, any
    other exception leaves the loop. *)
Fixpoint load_tenants (sources_repo : Repo) (names : list string)
  (sources : list pyval) : result (list pyval) :=
  match names with
  | [] => Ok sources
  | tenant :: rest =>
      match load_tenant sources_repo tenant with
      | Ok tenant_sources =>
          load_tenants sources_repo rest (sources ++ [tenant_sources])
      | Raise (CheckoutError _) => load_tenants sources_repo rest sources
      | Raise e => Raise e
      end
  end.

Definition no_tenants_folder : string :=
  "Cannot load tenant sources. Repo '%s' does not contain a 'tenants' folder".

Definition _load_tenant_sources_from_repo (sources_repo : Repo)
  : result pyval :=
  match list_directory sources_repo TENANTS_DIRECTORY with
  | Raise (CheckoutError _) =>
      rbind (format no_tenants_folder [repo_name sources_repo])
        (fun msg => Raise (ScraperConfigurationError msg))
  | Raise e => Raise e
  | Ok tenants =>
      rbind (load_tenants sources_repo (map fst tenants) [])
        (fun sources => Ok (PList sources))
  end.

(** [TenantParser(scrape_time, sources_file, sources_repo)]; an argument left
    out is [None]. *)
Definition __init__ (scrape_time : Z) (sources_file : option string)
  (sources_repo : option Repo) : result TenantParser :=
  rbind
    (match sources_file with
     | Some file =>
         if negb (String.eqb file "")
         then _load_tenant_sources_from_file file
         else match sources_repo with
              | Some repo => _load_tenant_sources_from_repo repo
              | None => Raise AttributeError
              end
     | None =>
         match sources_repo with
         | Some repo => _load_tenant_sources_from_repo repo
         | None => Raise AttributeError
         end
     end)
    (fun sources => Ok (mkParser sources scrape_time [] [])).

End Loaders.

End Parser.

(** * Properties *)

Import Py Parser.
Local Open Scope py_scope.

(** ** Vocabulary of the statements *)

(** A relation between the state before and after that every step of a
    computation respects, whatever the outcome. *)
Definition respects {A : Type} (R : relation TenantParser) (c : M A) : Prop :=
  forall self, R self (snd (c self)).

(** The entry a key reaches, empty when there is none yet. *)
Definition entry_of (k : pyval) (m : RepoTenantMap) : repo_entry :=
  match repo_get k m with
  | Some e => e
  | None => empty_entry
  end.

Definition jobs_of (k : pyval) (m : RepoTenantMap) : list pyobj :=
  jobs (entry_of k m).

Definition roles_of (k : pyval) (m : RepoTenantMap) : list pyobj :=
  roles (entry_of k m).

(** The map [_update_repo_map] leaves behind when nothing raises:
    [excluded] tells whether ["jobs"] was found in the exclusion list. *)
Definition updated_map (name : pyval) (excluded : bool) (tenant : pyobj)
  (m : RepoTenantMap) : RepoTenantMap :=
  let m1 := match repo_get name m with
            | Some _ => m
            | None => m ++ [(name, empty_entry)]
            end in
  let m2 := if negb excluded
            then repo_alter (append_jobs tenant) name m1 else m1 in
  repo_alter (append_roles tenant) name m2.

(** A record of one tenant that names one repository, by a plain string,
    under one category. *)
Definition single_repo_record (name category repo : string) : pyval :=
  PDict [("tenant",
          PDict [("name", PStr name);
                 ("source",
                  PDict [("github", PDict [(category, PList [PStr repo])])])])].

Definition jobs_within_roles (e : repo_entry) : Prop :=
  jobs e `sublist_of` roles e.

Definition map_ok (m : RepoTenantMap) : Prop :=
  Forall (fun ke => jobs_within_roles (snd ke)) m.

(** The number of elements of [l] that [p] accepts. *)
Definition count_if {A : Type} (p : A -> bool) (l : list A) : nat :=
  length (List.filter p l).

(** A property of the state that, once true, stays true. *)
Definition keeps (P : TenantParser -> Prop) : relation TenantParser :=
  fun self self' => P self -> P self'.

Definition map_is_ok (self : TenantParser) : Prop := map_ok (repo_map self).

(** Every sequence of [m'] is the one of [m] followed by copies of [x]. *)
Definition grows_by (x : pyobj) (m m' : RepoTenantMap) : Prop :=
  forall k, exists nj nr,
    jobs_of k m' = jobs_of k m ++ replicate nj x /\
    roles_of k m' = roles_of k m ++ replicate nr x.

(** What the loops over the projects of one tenant may do to [self]. *)
Definition appends_only (x : pyobj) : relation TenantParser :=
  fun self self' =>
    grows_by x (repo_map self) (repo_map self') /\
    tenants self' = tenants self.

(** The loops of [parse] over the categories and their projects. *)
Definition fold_projects (tenant_name : pyval)
  (categories : list (string * pyval)) : M unit :=
  for_each (fun '(project_type, projects) =>
              projects' <- lift (iter projects) ;;
              for_each (fun project =>
                          _update_repo_map project (OVal tenant_name))
                       projects')
           categories.

(** [folds l self self']: [parse] goes through all the records of [l],
    one after the other, and takes [self] to [self']. *)
Inductive folds : list pyval -> TenantParser -> TenantParser -> Prop :=
| folds_nil self : folds [] self self
| folds_cons r l self self1 self2 :
    parse_record r self = (Ok Continue, self1) ->
    folds l self1 self2 ->
    folds (r :: l) self self2.

(** [parse] reads [self.sources] once, at its start; what follows does not
    look at it. *)
Definition with_sources (srcs : pyval) (self : TenantParser) : TenantParser :=
  mkParser srcs (scrape_time self) (repo_map self) (tenants self).

Definition blind {A : Type} (c : M A) : Prop :=
  forall srcs self,
    c (with_sources srcs self) =
    (fst (c self), with_sources srcs (snd (c self))).

(** A record whose source is [{"gitlab": ...}]. *)
Definition no_github_record (name : string) : pyval :=
  PDict [("tenant",
          PDict [("name", PStr name);
                 ("source", PDict [("gitlab", PDict [])])])].

(** A record whose source is [{"github": v}]. *)
Definition github_record (name : string) (v : pyval) : pyval :=
  PDict [("tenant",
          PDict [("name", PStr name); ("source", PDict [("github", v)])])].

(** The first of the keys ["tenant"], ["source"], ["name"] that [parse]
    asks a record for and does not find. *)
Definition missing_key (r : pyval) : option string :=
  match r with
  | PDict d =>
      match dict_get "tenant" d with
      | None => Some "tenant"
      | Some (PDict t) =>
          match dict_get "source" t, dict_get "name" t with
          | None, _ => Some "source"
          | Some _, None => Some "name"
          | Some _, Some _ => None
          end
      | Some _ => None
      end
  | _ => None
  end.

(** A checkout without any file or folder. *)
Definition empty_checkout (name : string) : Repo :=
  mkRepo name
         (fun path => Raise (CheckoutError path))
         (fun path => Raise (CheckoutError path)).

Definition sources_yaml_of (sources_repo : Repo) (tenant : string)
  : result string :=
  check_out_file sources_repo (path_join "tenants" [tenant; "sources.yaml"]).

Definition settings_yaml_of (sources_repo : Repo) (tenant : string)
  : result string :=
  check_out_file sources_repo (path_join "tenants" [tenant; "settings.yaml"]).

(** Checking out [sources.yaml], or then [settings.yaml], ends in a
    [CheckoutError]. *)
Definition misses_a_file (sources_repo : Repo) (tenant : string) : bool :=
  match sources_yaml_of sources_repo tenant with
  | Raise (CheckoutError _) => true
  | Ok _ =>
      match settings_yaml_of sources_repo tenant with
      | Raise (CheckoutError _) => true
      | _ => false
      end
  | Raise _ => false
  end.

(** Both files are there, both load, and the settings are a mapping. *)
Definition loads_well (yaml_load : string -> result pyval)
  (sources_repo : Repo) (tenant : string) : Prop :=
  exists sources_yaml settings_yaml settings source,
    sources_yaml_of sources_repo tenant = Ok sources_yaml /\
    settings_yaml_of sources_repo tenant = Ok settings_yaml /\
    yaml_load settings_yaml = Ok (PDict settings) /\
    yaml_load sources_yaml = Ok source.

(** The record of a tenant directory: the settings, with the sources put
    under ["source"], under ["tenant"]. *)
Definition tenant_record (yaml_load : string -> result pyval)
  (sources_repo : Repo) (tenant : string) : option pyval :=
  match sources_yaml_of sources_repo tenant,
        settings_yaml_of sources_repo tenant with
  | Ok sources_yaml, Ok settings_yaml =>
      match yaml_load settings_yaml, yaml_load sources_yaml with
      | Ok (PDict settings), Ok source =>
          Some (PDict [("tenant", PDict (dict_set "source" source settings))])
      | _, _ => None
      end
  | _, _ => None
  end.

(** A checkout with the tenant directories [foo], which has no
    [sources.yaml], and [bar], which has both files; and a loader that knows
    the two documents of [bar]. *)
Definition sample_checkout : Repo :=
  mkRepo "orga/tenant-config"
    (fun path =>
       if String.eqb path "tenants"
       then Ok [("foo", PNone); ("bar", PNone)]
       else Raise (CheckoutError path))
    (fun path =>
       if String.eqb path "tenants/foo/settings.yaml" then Ok "name: foo"
       else if String.eqb path "tenants/bar/settings.yaml" then Ok "name: bar"
       else if String.eqb path "tenants/bar/sources.yaml"
            then Ok "github: {config-projects: [repo-a]}"
       else Raise (CheckoutError path)).

Definition sample_yaml_load (text : string) : result pyval :=
  if String.eqb text "name: foo" then Ok (PDict [("name", PStr "foo")])
  else if String.eqb text "name: bar" then Ok (PDict [("name", PStr "bar")])
  else if String.eqb text "github: {config-projects: [repo-a]}"
       then Ok (PDict [("github",
                        PDict [("config-projects", PList [PStr "repo-a"])])])
  else Raise YAMLError.

(** Strings of lowercase hexadecimal digits. *)
Fixpoint is_hex_string (s : string) : Prop :=
  match s with
  | EmptyString => True
  | String c s' => In c Sha1.hex_alphabet /\ is_hex_string s'
  end.

(** All of them, of a given length. *)
Fixpoint hex_strings (n : nat) : list string :=
  match n with
  | O => [EmptyString]
  | S n' =>
      flat_map (fun s => map (fun c => String c s) Sha1.hex_alphabet)
               (hex_strings n')
  end.

(** A name for every number: [k] times the letter [a]. *)
Fixpoint letters (k : nat) : string :=
  match k with
  | O => EmptyString
  | S k' => String "a" (letters k')
  end.

(** *** Vocabulary of the further properties *)

(** The sequences of [m'] start with those of [m], an entry of [m] is an
    entry of [m'], and the keys of [m'] start with the keys of [m], in the
    same order. *)
Definition extends_map (m m' : RepoTenantMap) : Prop :=
  (forall k,
     jobs_of k m `prefix_of` jobs_of k m' /\
     roles_of k m `prefix_of` roles_of k m' /\
     (repo_get k m <> None -> repo_get k m' <> None)) /\
  map fst m `prefix_of` map fst m'.

(** The only thing that may happen to [self]: elements are appended. *)
Definition only_appends : relation TenantParser :=
  fun self self' =>
    extends_map (repo_map self) (repo_map self') /\
    tenants self `prefix_of` tenants self' /\
    sources self' = sources self /\
    scrape_time self' = scrape_time self.

(** The values that cannot stand to the right of [in]. *)
Definition not_iterable (v : pyval) : bool :=
  match v with
  | PNone | PBool _ | PInt _ => true
  | _ => false
  end.

(** The exceptions that can come out of [parse]. *)
Definition parse_error (e : exn) : Prop :=
  match e with
  | KeyError k => k = "tenant" \/ k = "source" \/ k = "name"
  | TypeError | AttributeError | IndexError => True
  | _ => False
  end.

(** Every exception of [c] satisfies [P]. *)
Definition raises_only {A : Type} (P : exn -> Prop) (c : M A) : Prop :=
  forall self e self', c self = (Raise e, self') -> P e.

(** The tenant [parse] makes of a record at scrape time [time]. *)
Definition tenant_of_record (time : Z) (r : pyval) (t : ZuulTenant) : Prop :=
  exists tenant_obj name,
    getitem r "tenant" = Ok tenant_obj /\
    getitem tenant_obj "name" = Ok (PStr name) /\
    t = mkZuulTenant (tenant_id name) name time.

(** Whatever the map holds is the name of a tenant of the list. *)
Definition named_by_tenants (m : RepoTenantMap) (ts : list ZuulTenant)
  : Prop :=
  forall k e x,
    repo_get k m = Some e ->
    In x (jobs e) \/ In x (roles e) ->
    exists t, In t ts /\ x = OVal (PStr (tenant_name t)).

(** What [c] returns or raises and the tenants it appends are settled by
    [self.sources] and [self.scrape_time], which it leaves alone. *)
Definition uniform {A : Type} (c : M A) : Prop :=
  forall srcs time, exists (r : result A) (new : list ZuulTenant),
    forall self,
      sources self = srcs -> scrape_time self = time ->
      fst (c self) = r /\
      tenants (snd (c self)) = tenants self ++ new /\
      sources (snd (c self)) = srcs /\
      scrape_time (snd (c self)) = time.

Definition is_checkout_error (e : exn) : bool :=
  match e with
  | CheckoutError _ => true
  | _ => false
  end.

(** [r] is the record of the tenant directory [tenant]: its settings, with
    the loaded sources under ["source"] (in place of what the settings may
    have had there), under ["tenant"]. *)
Definition record_of_directory (yaml_load : string -> result pyval)
  (sources_repo : Repo) (tenant : string) (r : pyval) : Prop :=
  exists sources_yaml settings_yaml settings0 source settings,
    sources_yaml_of sources_repo tenant = Ok sources_yaml /\
    settings_yaml_of sources_repo tenant = Ok settings_yaml /\
    yaml_load settings_yaml = Ok (PDict settings0) /\
    yaml_load sources_yaml = Ok source /\
    getitem r "tenant" = Ok (PDict settings) /\
    dict_get "source" settings = Some source /\
    forall k, k <> "source" -> dict_get k settings = dict_get k settings0.

(** A checkout with the tenant directories [bar], which has both files, and
    [baz], whose [settings.yaml] holds a list instead of a mapping. *)
Definition broken_checkout : Repo :=
  mkRepo "orga/tenant-config"
    (fun path =>
       if String.eqb path "tenants"
       then Ok [("bar", PNone); ("baz", PNone)]
       else Raise (CheckoutError path))
    (fun path =>
       if String.eqb path "tenants/bar/settings.yaml" then Ok "name: bar"
       else if String.eqb path "tenants/bar/sources.yaml"
            then Ok "github: {config-projects: [repo-a]}"
       else if String.eqb path "tenants/baz/settings.yaml" then Ok "- name: baz"
       else if String.eqb path "tenants/baz/sources.yaml"
            then Ok "github: {config-projects: [repo-a]}"
       else Raise (CheckoutError path)).

Definition broken_yaml_load (text : string) : result pyval :=
  if String.eqb text "- name: baz"
  then Ok (PList [PDict [("name", PStr "baz")]])
  else sample_yaml_load text.

(** A checkout with one tenant directory, [qux], whose settings are an
    empty mapping. *)
Definition nameless_checkout : Repo :=
  mkRepo "orga/tenant-config"
    (fun path =>
       if String.eqb path "tenants" then Ok [("qux", PNone)]
       else Raise (CheckoutError path))
    (fun path =>
       if String.eqb path "tenants/qux/settings.yaml" then Ok "{}"
       else if String.eqb path "tenants/qux/sources.yaml"
            then Ok "github: {config-projects: [repo-a]}"
       else Raise (CheckoutError path)).

Definition nameless_yaml_load (text : string) : result pyval :=
  if String.eqb text "{}" then Ok (PDict []) else sample_yaml_load text.







(** ** The monad: how a computation steps *)

Section Steps.

Context {A B : Type}.

Lemma bind_ok (c : M A) (k : A -> M B) self a self' :
  c self = (Ok a, self') -> bind c k self = k a self'.
Proof. intros H. unfold bind. now rewrite H. Qed.

Lemma bind_raise (c : M A) (k : A -> M B) self e self' :
  c self = (Raise e, self') -> bind c k self = (Raise e, self').
Proof. intros H. unfold bind. now rewrite H. Qed.

Lemma bind_lift_ok (a : A) (k : A -> M B) self :
  bind (lift (Ok a)) k self = k a self.
Proof. reflexivity. Qed.

Lemma bind_lift_raise e (k : A -> M B) self :
  bind (lift (Raise e)) k self = (Raise e, self).
Proof. reflexivity. Qed.

End Steps.

Section Respects.

Context (R : relation TenantParser) `{!Reflexive R} `{!Transitive R}.

Lemma respects_ret {A} (a : A) : respects R (ret a).
Proof. intros self. simpl. reflexivity. Qed.

Lemma respects_lift {A} (r : result A) : respects R (lift r).
Proof. intros self. simpl. reflexivity. Qed.

Lemma respects_read {A} (field : TenantParser -> A) : respects R (read field).
Proof. intros self. simpl. reflexivity. Qed.

Lemma respects_bind {A B} (c : M A) (k : A -> M B) :
  respects R c -> (forall a, respects R (k a)) -> respects R (bind c k).
Proof.
  intros Hc Hk self. unfold bind.
  specialize (Hc self). destruct (c self) as [[a|e] self1]; simpl in *.
  - etransitivity; [exact Hc | apply Hk].
  - exact Hc.
Qed.

Lemma respects_for_each {A} (body : A -> M unit) (l : list A) :
  (forall x, respects R (body x)) -> respects R (for_each body l).
Proof.
  intros Hbody. induction l as [|x l IH]; simpl.
  - apply respects_ret.
  - apply respects_bind; [apply Hbody | intros _; exact IH].
Qed.

End Respects.

(** ** The repository map *)

(** Key comparison is a partial equivalence, total on hashable values. *)
Lemma key_eqb_refl k : hashable k = true -> key_eqb k k = true.
Proof.
  destruct k as [ | [|] | z | s | l | d ]; simpl; try discriminate; intros _;
    auto using String.eqb_refl, Z.eqb_refl.
Qed.

Lemma key_eqb_eq_l a b c : key_eqb a b = true -> key_eqb a c = key_eqb b c.
Proof.
  destruct a as [ | [|] | x | s | l | d ], b as [ | [|] | y | t | l' | d' ];
    cbn -[Z.eqb String.eqb]; try discriminate; intros H;
    try (apply String.eqb_eq in H; subst);
    try (apply Z.eqb_eq in H; subst);
    destruct c as [ | [|] | w | u | l'' | d'' ];
    cbn -[Z.eqb String.eqb]; try reflexivity; try discriminate.
Qed.

Lemma key_eqb_sym a b : key_eqb a b = key_eqb b a.
Proof.
  destruct a as [ | [|] | x | s | l | d ], b as [ | [|] | y | t | l' | d' ];
    cbn -[Z.eqb String.eqb]; auto using String.eqb_sym, Z.eqb_sym.
Qed.

Lemma key_eqb_eq_r a b c : key_eqb a b = true -> key_eqb c a = key_eqb c b.
Proof.
  intros H. rewrite (key_eqb_sym c a), (key_eqb_sym c b).
  now apply key_eqb_eq_l.
Qed.

Lemma repo_get_app j k e (m : RepoTenantMap) :
  repo_get j (m ++ [(k, e)]) =
  match repo_get j m with
  | Some x => Some x
  | None => if key_eqb j k then Some e else None
  end.
Proof.
  induction m as [|[k' e'] m IH]; simpl; [reflexivity|].
  destruct (key_eqb j k'); [reflexivity | exact IH].
Qed.

Lemma repo_get_alter g j k (m : RepoTenantMap) :
  repo_get j (repo_alter g k m) =
  if key_eqb j k then option_map g (repo_get j m) else repo_get j m.
Proof.
  induction m as [|[k' e'] m IH]; simpl.
  - now destruct (key_eqb j k).
  - destruct (key_eqb k k') eqn:Hk; simpl.
    + rewrite (key_eqb_eq_r _ _ j Hk).
      now destruct (key_eqb j k').
    + destruct (key_eqb j k') eqn:Hj; [|exact IH].
      rewrite (key_eqb_eq_l _ _ k Hj), (key_eqb_sym k' k), Hk. reflexivity.
Qed.

Lemma update_repo_map_ok project tenant self name exclude excluded :
  _extract_project project = Ok (name, exclude) ->
  hashable name = true ->
  contains_str "jobs" exclude = Ok excluded ->
  _update_repo_map project tenant self =
  (Ok tt, set_repo_map (updated_map name excluded tenant (repo_map self)) self).
Proof.
  intros Hex Hhash Hin. unfold _update_repo_map, updated_map.
  rewrite Hex, bind_lift_ok. unfold setdefault. rewrite Hhash.
  unfold bind at 1, update at 1. rewrite Hin, bind_lift_ok.
  destruct self as [srcs time m ts]; simpl.
  destruct (repo_get name m), excluded; reflexivity.
Qed.

Lemma repo_get_updated j name excluded tenant (m : RepoTenantMap) :
  hashable name = true ->
  repo_get j (updated_map name excluded tenant m) =
  if key_eqb j name
  then Some (mkEntry (jobs_of name m ++ (if excluded then [] else [tenant]))
                     (roles_of name m ++ [tenant]))
  else repo_get j m.
Proof.
  intros Hhash. unfold updated_map, jobs_of, roles_of, entry_of.
  pose proof (key_eqb_refl name Hhash) as Hrefl.
  rewrite repo_get_alter.
  destruct (key_eqb j name) eqn:Hj.
  - assert (Hget : forall m', repo_get j m' = repo_get name m').
    { intros m'. induction m' as [|[k' e'] m' IH]; simpl; [reflexivity|].
      rewrite (key_eqb_eq_l _ _ k' Hj). now rewrite IH. }
    rewrite !Hget.
    destruct excluded; simpl; rewrite ?repo_get_alter, ?Hrefl;
      destruct (repo_get name m) as [e|] eqn:Hm; simpl;
      rewrite ?Hm, ?repo_get_app, ?Hm, ?Hrefl; simpl;
      rewrite ?app_nil_r; reflexivity.
  - destruct excluded; simpl; rewrite ?repo_get_alter, ?Hj;
      destruct (repo_get name m) as [e|] eqn:Hm;
      rewrite ?repo_get_app, ?Hj; try reflexivity;
      now destruct (repo_get j m).
Qed.

Lemma roles_of_updated name excluded tenant (m : RepoTenantMap) :
  hashable name = true ->
  roles_of name (updated_map name excluded tenant m) = roles_of name m ++ [tenant].
Proof.
  intros Hhash. unfold roles_of at 1, entry_of.
  now rewrite repo_get_updated, key_eqb_refl.
Qed.

Lemma jobs_of_updated name excluded tenant (m : RepoTenantMap) :
  hashable name = true ->
  jobs_of name (updated_map name excluded tenant m) =
  jobs_of name m ++ (if excluded then [] else [tenant]).
Proof.
  intros Hhash. unfold jobs_of at 1, entry_of.
  now rewrite repo_get_updated, key_eqb_refl.
Qed.

(** When [_update_repo_map] returns, every step before went through. *)
Lemma update_repo_map_inv project tenant self self' :
  _update_repo_map project tenant self = (Ok tt, self') ->
  exists name exclude excluded,
    _extract_project project = Ok (name, exclude) /\
    hashable name = true /\
    contains_str "jobs" exclude = Ok excluded /\
    self' = set_repo_map (updated_map name excluded tenant (repo_map self)) self.
Proof.
  intros Hrun.
  destruct (_extract_project project) as [[name exclude]|e] eqn:Hex.
  2:{ unfold _update_repo_map in Hrun. rewrite Hex in Hrun. discriminate. }
  destruct (hashable name) eqn:Hhash.
  2:{ unfold _update_repo_map, setdefault in Hrun.
      rewrite Hex, bind_lift_ok, Hhash in Hrun. discriminate. }
  destruct (contains_str "jobs" exclude) as [excluded|e] eqn:Hin.
  2:{ unfold _update_repo_map, setdefault in Hrun.
      rewrite Hex, bind_lift_ok, Hhash in Hrun.
      unfold bind at 1, update at 1 in Hrun.
      rewrite Hin in Hrun. discriminate. }
  exists name, exclude, excluded. repeat split; try assumption.
  rewrite (update_repo_map_ok _ tenant self _ _ _ Hex Hhash Hin) in Hrun.
  congruence.
Qed.

(** ** C1: which exclusion list is read, and for which sequence *)

(** One tenant, three ways to write a project: a plain name, a mapping
    with the exclusion list beneath the name, and a mapping with the
    exclusion list beside the name. Only the last, a mapping of two keys,
    keeps the tenant out of ['jobs']. *)
Example parse_three_projects :
  fst (parse (mkParser
    (PList [github_record "foo"
              (PDict [("untrusted-projects",
                 PList [PStr "repo-a";
                        PDict [("repo-b",
                                PDict [("exclude", PList [PStr "jobs"])])];
                        PDict [("repo-c", PNone);
                               ("exclude", PList [PStr "jobs"])]])])])
    42 [] []))
  = Ok ([(PStr "repo-a",
          mkEntry [OVal (PStr "foo")] [OVal (PStr "foo")]);
         (PStr "repo-b",
          mkEntry [OVal (PStr "foo")] [OVal (PStr "foo")]);
         (PStr "repo-c", mkEntry [] [OVal (PStr "foo")])],
        [mkZuulTenant "0beec7b5ea3f0fdbc95d0dd47f3c5bc275da8a33" "foo" 42]).
Proof. vm_compute. reflexivity. Qed.

(** The code does not do what C1 says: for a project written
    [{repo: {"exclude": ["jobs"]}}] the tenant is appended to ['jobs'] as
    well, because the exclusion list is looked up beside the repository
    name, not beneath it. *)
Lemma nested_exclude_does_not_exclude :
  ~ (forall (repo : string) (tenant : pyobj) (self : TenantParser),
       exists self',
         _update_repo_map
           (PDict [(repo, PDict [("exclude", PList [PStr "jobs"])])])
           tenant self = (Ok tt, self') /\
         roles_of (PStr repo) (repo_map self') =
           roles_of (PStr repo) (repo_map self) ++ [tenant] /\
         jobs_of (PStr repo) (repo_map self') =
           jobs_of (PStr repo) (repo_map self)).
Proof.
  intros H.
  destruct (H "repo-b" (OVal (PStr "foo")) (mkParser (PList []) 0 [] []))
    as (self' & Hrun & _ & Hjobs).
  vm_compute in Hrun. injection Hrun as <-.
  vm_compute in Hjobs. discriminate Hjobs.
Qed.

(** C1, on the code. A project written [{repo: {"exclude": ["jobs"]}}] does
    not keep the tenant out of ['jobs']: [_extract_project] takes the first
    key of the mapping as the name and then asks that same mapping, not the
    one beneath the name, for ["exclude"]. So for every mapping with a
    single key other than ["exclude"] the exclusion list is empty, and the
    tenant is appended to ['jobs'] as it is to ['roles']: the test on
    ["jobs"] never excludes anything for such a project. ['roles'] is
    appended to whenever the update returns, as the claim says. *)
Theorem exclusion_beneath_the_name_is_ignored
  (tenant : pyobj) (self : TenantParser) :
  (forall repo,
     exists self',
       _update_repo_map
         (PDict [(repo, PDict [("exclude", PList [PStr "jobs"])])])
         tenant self = (Ok tt, self') /\
       roles_of (PStr repo) (repo_map self') =
         roles_of (PStr repo) (repo_map self) ++ [tenant] /\
       jobs_of (PStr repo) (repo_map self') =
         jobs_of (PStr repo) (repo_map self) ++ [tenant]) /\
  (forall repo v,
     repo <> "exclude" ->
     _extract_project (PDict [(repo, v)]) = Ok (PStr repo, PList []) /\
     exists self',
       _update_repo_map (PDict [(repo, v)]) tenant self = (Ok tt, self') /\
       roles_of (PStr repo) (repo_map self') =
         roles_of (PStr repo) (repo_map self) ++ [tenant] /\
       jobs_of (PStr repo) (repo_map self') =
         jobs_of (PStr repo) (repo_map self) ++ [tenant]) /\
  (forall project self',
     _update_repo_map project tenant self = (Ok tt, self') ->
     exists name exclude,
       _extract_project project = Ok (name, exclude) /\
       roles_of name (repo_map self') =
         roles_of name (repo_map self) ++ [tenant]).
Proof.
  split; [|split].
  - intros repo.
    assert (Hex : exists exclude,
      _extract_project
        (PDict [(repo, PDict [("exclude", PList [PStr "jobs"])])])
      = Ok (PStr repo, exclude) /\ contains_str "jobs" exclude = Ok false).
    { unfold _extract_project, dict_get.
      destruct ("exclude" =? repo)%string; eexists; split; reflexivity. }
    destruct Hex as (exclude & Hex & Hin).
    eexists. split.
    + now apply (update_repo_map_ok _ tenant self _ _ false Hex).
    + destruct self as [srcs time m ts]; simpl.
      now rewrite roles_of_updated, jobs_of_updated.
  - intros repo v Hne.
    assert (Hex : _extract_project (PDict [(repo, v)])
                  = Ok (PStr repo, PList [])).
    { unfold _extract_project, dict_get.
      assert (Hneq : ("exclude" =? repo)%string = false)
        by (apply String.eqb_neq; congruence).
      now rewrite Hneq. }
    split; [exact Hex|]. eexists. split.
    + now apply (update_repo_map_ok _ tenant self _ _ false Hex).
    + destruct self as [srcs time m ts]; simpl.
      now rewrite roles_of_updated, jobs_of_updated.
  - intros project self' Hrun.
    destruct (update_repo_map_inv _ _ _ _ Hrun)
      as (name & exclude & excluded & Hex & Hhash & _ & ->).
    exists name, exclude. split; [assumption|].
    destruct self as [srcs time m ts]; simpl.
    now apply roles_of_updated.
Qed.

Lemma exclusion_beneath_the_name_is_ignored_witness :
  let tenant := OVal (PStr "foo") in
  let self := mkParser (PList []) 0 [] [] in
  let project := PDict [("repo-b", PDict [("exclude", PList [PStr "jobs"])])] in
  _extract_project project = Ok (PStr "repo-b", PList []) /\
  exists self',
    _update_repo_map project tenant self = (Ok tt, self') /\
    roles_of (PStr "repo-b") (repo_map self') = [] ++ [tenant] /\
    jobs_of (PStr "repo-b") (repo_map self') = [] ++ [tenant].
Proof.
  intros tenant self project.
  exact (proj1 (proj2 (exclusion_beneath_the_name_is_ignored tenant self))
           "repo-b" (PDict [("exclude", PList [PStr "jobs"])])
           ltac:(discriminate)).
Defined.

(** ** [parse], one record at a time *)

Lemma parse_loop_cons r rest self :
  parse_loop (r :: rest) self =
  match parse_record r self with
  | (Ok Continue, self') => parse_loop rest self'
  | (Ok Break, self') => (Ok tt, self')
  | (Raise e, self') => (Raise e, self')
  end.
Proof.
  simpl. unfold bind.
  destruct (parse_record r self) as [[[|]|e] self']; reflexivity.
Qed.

Lemma parse_of_list l time m ts :
  parse (mkParser (PList l) time m ts) =
  match parse_loop l (mkParser (PList l) time m ts) with
  | (Ok _, self') => (Ok (repo_map self', tenants self'), self')
  | (Raise e, self') => (Raise e, self')
  end.
Proof.
  unfold parse, bind, read, lift, ret. simpl.
  destruct (parse_loop l _) as [[[]|e] self']; reflexivity.
Qed.

(** ** C6: entries appear on first reference and grow at the end *)

Lemma parse_single_repo_record name category repo self :
  parse_record (single_repo_record name category repo) self =
  (Ok Continue,
   set_tenants
     (tenants self ++ [mkZuulTenant (tenant_id name) name (scrape_time self)])
     (set_repo_map
        (updated_map (PStr repo) false (OVal (PStr name)) (repo_map self))
        self)).
Proof.
  unfold parse_record, single_repo_record.
  cbn -[tenant_id _update_repo_map updated_map].
  unfold bind, lift, for_each, ret.
  cbn -[tenant_id _update_repo_map updated_map]. unfold bind.
  rewrite (update_repo_map_ok (PStr repo) (OVal (PStr name)) self
             (PStr repo) (PList []) false eq_refl eq_refl eq_refl).
  reflexivity.
Qed.

Lemma update_plain_project repo tenant self :
  _update_repo_map (PStr repo) tenant self =
  (Ok tt,
   set_repo_map (updated_map (PStr repo) false tenant (repo_map self)) self).
Proof. now apply (update_repo_map_ok _ _ _ _ (PList [])). Qed.

(** C6. A repository that has no entry yet gets one, made of empty
    sequences, at the moment a tenant refers to it, and no other entry is
    made or changed; a repository that has an entry gets the tenant appended
    at the end of both sequences. Two tenants that each refer to the same
    repository, parsed from an empty map, leave one entry whose ['jobs'] and
    ['roles'] hold two elements, one per tenant, in the order of the
    records (also when both tenants bear the same name). *)
Theorem entries_are_lazy_and_ordered :
  (forall repo tenant self,
     repo_get (PStr repo) (repo_map self) = None ->
     exists self',
       _update_repo_map (PStr repo) tenant self = (Ok tt, self') /\
       repo_get (PStr repo) (repo_map self') = Some (mkEntry [tenant] [tenant]) /\
       forall j, key_eqb j (PStr repo) = false ->
                 repo_get j (repo_map self') = repo_get j (repo_map self)) /\
  (forall repo tenant self e,
     repo_get (PStr repo) (repo_map self) = Some e ->
     exists self',
       _update_repo_map (PStr repo) tenant self = (Ok tt, self') /\
       repo_get (PStr repo) (repo_map self') =
         Some (mkEntry (jobs e ++ [tenant]) (roles e ++ [tenant])) /\
       forall j, key_eqb j (PStr repo) = false ->
                 repo_get j (repo_map self') = repo_get j (repo_map self)) /\
  (forall n1 n2 c1 c2 repo time,
     fst (parse (mkParser
                   (PList [single_repo_record n1 c1 repo;
                           single_repo_record n2 c2 repo])
                   time [] [])) =
     Ok ([(PStr repo,
           mkEntry [OVal (PStr n1); OVal (PStr n2)]
                   [OVal (PStr n1); OVal (PStr n2)])],
         [mkZuulTenant (tenant_id n1) n1 time;
          mkZuulTenant (tenant_id n2) n2 time])).
Proof.
  split; [|split].
  - intros repo tenant self Hnone. eexists. split; [apply update_plain_project|].
    destruct self as [srcs time m ts]; simpl in *. split.
    + rewrite repo_get_updated by reflexivity.
      rewrite key_eqb_refl by reflexivity.
      unfold jobs_of, roles_of, entry_of. now rewrite Hnone.
    + intros j Hj. rewrite repo_get_updated by reflexivity. now rewrite Hj.
  - intros repo tenant self e Hsome. eexists.
    split; [apply update_plain_project|].
    destruct self as [srcs time m ts]; simpl in *. split.
    + rewrite repo_get_updated by reflexivity.
      rewrite key_eqb_refl by reflexivity.
      unfold jobs_of, roles_of, entry_of. now rewrite Hsome.
    + intros j Hj. rewrite repo_get_updated by reflexivity. now rewrite Hj.
  - intros n1 n2 c1 c2 repo time.
    rewrite parse_of_list, parse_loop_cons, parse_single_repo_record.
    cbv beta iota.
    rewrite parse_loop_cons, parse_single_repo_record.
    repeat (cbn -[tenant_id String.eqb]; rewrite ?String.eqb_refl).
    reflexivity.
Qed.

Lemma entries_are_lazy_and_ordered_witness :
  let tenant := OVal (PStr "foo") in
  let self := mkParser (PList []) 0 [] [] in
  repo_get (PStr "repo-c") (repo_map self) = None /\
  exists self',
    _update_repo_map (PStr "repo-c") tenant self = (Ok tt, self') /\
    repo_get (PStr "repo-c") (repo_map self') = Some (mkEntry [tenant] [tenant]) /\
    forall j, key_eqb j (PStr "repo-c") = false ->
              repo_get j (repo_map self') = repo_get j (repo_map self).
Proof.
  intros tenant self. split; [reflexivity|].
  exact (proj1 entries_are_lazy_and_ordered "repo-c" tenant self eq_refl).
Defined.

(** ** C9: ['jobs'] stays within ['roles'] *)

Lemma sublist_count_if {A : Type} (p : A -> bool) (l1 l2 : list A) :
  l1 `sublist_of` l2 -> count_if p l1 <= count_if p l2.
Proof.
  unfold count_if. induction 1 as [|x l1 l2 _ IH|x l1 l2 _ IH]; simpl.
  - lia.
  - destruct (p x); simpl; lia.
  - destruct (p x); simpl; lia.
Qed.

Lemma repo_get_In k e (m : RepoTenantMap) :
  repo_get k m = Some e -> exists k', In (k', e) m.
Proof.
  induction m as [|[k' e'] m IH]; simpl; [discriminate|].
  destruct (key_eqb k k').
  - intros [= ->]. eauto.
  - intros H. destruct (IH H) as [k'' Hin]. eauto.
Qed.

Lemma repo_alter_compose g h k (m : RepoTenantMap) :
  repo_alter g k (repo_alter h k m) = repo_alter (fun e => g (h e)) k m.
Proof.
  induction m as [|[k' e'] m IH]; simpl; [reflexivity|].
  destruct (key_eqb k k') eqn:Hk; simpl; rewrite Hk; [reflexivity|].
  now rewrite IH.
Qed.

Lemma map_ok_alter g k m :
  (forall e, jobs_within_roles e -> jobs_within_roles (g e)) ->
  map_ok m -> map_ok (repo_alter g k m).
Proof.
  intros Hg. unfold map_ok. induction 1 as [|[k' e'] m He Hm IH]; simpl.
  - constructor.
  - destruct (key_eqb k k'); constructor; simpl in *; auto.
Qed.

Lemma map_ok_setdefault k m :
  map_ok m ->
  map_ok (match repo_get k m with
          | Some _ => m
          | None => m ++ [(k, empty_entry)]
          end).
Proof.
  intros Hm. destruct (repo_get k m); [assumption|].
  apply Forall_app. split; [assumption|].
  constructor; [apply sublist_nil_l | constructor].
Qed.

Lemma map_ok_updated name excluded tenant m :
  map_ok m -> map_ok (updated_map name excluded tenant m).
Proof.
  intros Hm. unfold updated_map.
  apply (map_ok_setdefault name) in Hm.
  destruct excluded; simpl.
  - apply map_ok_alter; [|assumption].
    intros e He. now apply sublist_inserts_r.
  - rewrite repo_alter_compose. apply map_ok_alter; [|assumption].
    intros e He. unfold jobs_within_roles in *; simpl.
    now apply sublist_app.
Qed.

#[local] Instance keeps_refl P : Reflexive (keeps P).
Proof. intros self H. exact H. Qed.

#[local] Instance keeps_trans P : Transitive (keeps P).
Proof. intros s1 s2 s3 H12 H23 H. auto. Qed.

Lemma respects_update R (g : TenantParser -> TenantParser) :
  (forall self, R self (g self)) -> respects R (update g).
Proof. intros Hg self. apply Hg. Qed.

(** Walks through a computation bind by bind; [known] closes the calls
    that have a lemma of their own. *)
Ltac respects_steps known :=
  repeat first
    [ known
    | lazymatch goal with
      | |- Reflexive _ => typeclasses eauto
      | |- Transitive _ => typeclasses eauto
      end
    | apply respects_ret
    | apply respects_lift
    | apply respects_read
    | apply respects_bind; [| |intros ?]
    | apply respects_for_each; [| |intros ?]
    | match goal with
      | |- respects _ (if ?b then _ else _) => destruct b
      | |- respects _ (match ?p with _ => _ end) => destruct p
      end ].

Lemma update_repo_map_keeps_ok project tenant :
  respects (keeps map_is_ok) (_update_repo_map project tenant).
Proof.
  intros self Hok. unfold map_is_ok in *.
  destruct (_extract_project project) as [[name exclude]|e] eqn:Hex.
  2:{ unfold _update_repo_map. now rewrite Hex. }
  destruct (hashable name) eqn:Hhash.
  2:{ unfold _update_repo_map, setdefault.
      now rewrite Hex, bind_lift_ok, Hhash. }
  destruct (contains_str "jobs" exclude) as [excluded|e] eqn:Hin.
  - rewrite (update_repo_map_ok _ tenant self _ _ _ Hex Hhash Hin).
    destruct self as [srcs time m ts]; simpl in *.
    now apply map_ok_updated.
  - unfold _update_repo_map, setdefault.
    rewrite Hex, bind_lift_ok, Hhash.
    unfold bind at 1, update at 1. rewrite Hin.
    destruct self as [srcs time m ts]; simpl in *.
    apply (map_ok_setdefault name) in Hok.
    now destruct (repo_get name m).
Qed.

Lemma parse_record_keeps_ok r : respects (keeps map_is_ok) (parse_record r).
Proof.
  unfold parse_record.
  respects_steps ltac:(apply update_repo_map_keeps_ok).
  apply respects_update. intros self Hok. exact Hok.
Qed.

Lemma parse_loop_keeps_ok l : respects (keeps map_is_ok) (parse_loop l).
Proof.
  induction l as [|r l IH]; simpl.
  - apply respects_ret; typeclasses eauto.
  - respects_steps ltac:(first [apply parse_record_keeps_ok | exact IH]).
Qed.

Lemma parse_keeps_ok : respects (keeps map_is_ok) parse.
Proof. unfold parse. respects_steps ltac:(apply parse_loop_keeps_ok). Qed.

Lemma parse_returns_accumulators self m ts self' :
  parse self = (Ok (m, ts), self') ->
  m = repo_map self' /\ ts = tenants self'.
Proof.
  unfold parse, bind, read, lift, ret.
  destruct (iter (sources self)) as [l|e]; [|discriminate].
  destruct (parse_loop l self) as [[[]|e] self1]; [|discriminate].
  intros [= <- <- <-]. split; reflexivity.
Qed.

Lemma map_ok_get (m : RepoTenantMap) k e :
  map_ok m -> repo_get k m = Some e -> jobs e `sublist_of` roles e.
Proof.
  intros Hok Hget. destruct (repo_get_In _ _ _ Hget) as [k' Hin].
  unfold map_ok in Hok. rewrite List.Forall_forall in Hok.
  exact (Hok _ Hin).
Qed.

(** C9. If in every entry of the map ['jobs'] is a subsequence of ['roles'],
    the same holds after [_update_repo_map], after the handling of a record
    and after [parse], whether they return or raise, and so for the map
    [parse] returns. For an entry this means that ['roles'] is at least as
    long as ['jobs'], that whatever is counted occurs in ['roles'] at least
    as often as in ['jobs'], and that every element of ['jobs'] is an
    element of ['roles']. *)
Theorem jobs_is_a_subsequence_of_roles (self : TenantParser) :
  map_ok (repo_map self) ->
  (forall project tenant,
     map_ok (repo_map (snd (_update_repo_map project tenant self)))) /\
  (forall r, map_ok (repo_map (snd (parse_record r self)))) /\
  map_ok (repo_map (snd (parse self))) /\
  (forall m ts self', parse self = (Ok (m, ts), self') -> map_ok m) /\
  (forall (m : RepoTenantMap) k e,
     map_ok m -> repo_get k m = Some e ->
     jobs e `sublist_of` roles e /\
     length (jobs e) <= length (roles e) /\
     (forall p, count_if p (jobs e) <= count_if p (roles e)) /\
     (forall x, In x (jobs e) -> In x (roles e))).
Proof.
  intros Hok. split; [|split; [|split; [|split]]].
  - intros project tenant. now apply update_repo_map_keeps_ok.
  - intros r. now apply parse_record_keeps_ok.
  - now apply parse_keeps_ok.
  - intros m ts self' Hrun.
    destruct (parse_returns_accumulators _ _ _ _ Hrun) as [-> _].
    pose proof (parse_keeps_ok self Hok) as H. now rewrite Hrun in H.
  - intros m k e Hm Hget. pose proof (map_ok_get _ _ _ Hm Hget) as Hsub.
    split; [exact Hsub|]. split; [now apply sublist_length|].
    split; [intros p; now apply sublist_count_if|].
    intros x Hx. apply list_elem_of_In. apply list_elem_of_In in Hx.
    now apply (elem_of_sublist (jobs e)).
Qed.

Lemma jobs_is_a_subsequence_of_roles_witness :
  let self :=
    mkParser (PList [single_repo_record "foo" "config-projects" "repo-a"])
             0 [] [] in
  map_ok (repo_map self) /\ map_ok (repo_map (snd (parse self))).
Proof.
  intros self.
  assert (Hok : map_ok (repo_map self)) by constructor.
  split; [exact Hok|].
  exact (proj1 (proj2 (proj2 (jobs_is_a_subsequence_of_roles self Hok)))).
Defined.

(** ** C2: what the sequences hold *)

Lemma grows_by_refl x m : grows_by x m m.
Proof. intros k. exists 0, 0. simpl. now rewrite !app_nil_r. Qed.

Lemma grows_by_trans x m1 m2 m3 :
  grows_by x m1 m2 -> grows_by x m2 m3 -> grows_by x m1 m3.
Proof.
  intros H12 H23 k.
  destruct (H12 k) as (nj & nr & Hj & Hr), (H23 k) as (nj' & nr' & Hj' & Hr').
  exists (nj + nj'), (nr + nr').
  rewrite Hj', Hr', Hj, Hr, !replicate_add, !app_assoc. auto.
Qed.

Lemma repo_get_eqb j k (m : RepoTenantMap) :
  key_eqb j k = true -> repo_get j m = repo_get k m.
Proof.
  intros Hjk. induction m as [|[k' e'] m IH]; simpl; [reflexivity|].
  now rewrite (key_eqb_eq_l _ _ k' Hjk), IH.
Qed.

Lemma grows_by_setdefault x k (m : RepoTenantMap) :
  grows_by x m (match repo_get k m with
                | Some _ => m
                | None => m ++ [(k, empty_entry)]
                end).
Proof.
  destruct (repo_get k m) eqn:Hk; [apply grows_by_refl|].
  intros j. exists 0, 0. simpl. rewrite !app_nil_r.
  unfold jobs_of, roles_of, entry_of. rewrite repo_get_app.
  destruct (repo_get j m); [auto|]. now destruct (key_eqb j k).
Qed.

Lemma grows_by_updated name excluded x (m : RepoTenantMap) :
  hashable name = true -> grows_by x m (updated_map name excluded x m).
Proof.
  intros Hhash j. unfold jobs_of at 1, roles_of at 1, entry_of.
  rewrite repo_get_updated by assumption.
  destruct (key_eqb j name) eqn:Hj; simpl.
  - unfold jobs_of, roles_of, entry_of. rewrite (repo_get_eqb _ _ m Hj).
    exists (if excluded then 0 else 1), 1. now destruct excluded.
  - exists 0, 0. simpl. rewrite !app_nil_r.
    unfold jobs_of, roles_of, entry_of. auto.
Qed.

#[local] Instance appends_only_refl x : Reflexive (appends_only x).
Proof. intros self. split; [apply grows_by_refl | reflexivity]. Qed.

#[local] Instance appends_only_trans x : Transitive (appends_only x).
Proof.
  intros s1 s2 s3 [H12 T12] [H23 T23]. split.
  - eapply grows_by_trans; eassumption.
  - congruence.
Qed.

Lemma update_repo_map_appends_only project x :
  respects (appends_only x) (_update_repo_map project x).
Proof.
  intros self.
  destruct (_extract_project project) as [[name exclude]|e] eqn:Hex.
  2:{ unfold _update_repo_map. rewrite Hex. simpl. reflexivity. }
  destruct (hashable name) eqn:Hhash.
  2:{ unfold _update_repo_map, setdefault.
      rewrite Hex, bind_lift_ok, Hhash. simpl. reflexivity. }
  destruct (contains_str "jobs" exclude) as [excluded|e] eqn:Hin.
  - rewrite (update_repo_map_ok _ x self _ _ _ Hex Hhash Hin).
    destruct self as [srcs time m ts]; simpl. split; [|reflexivity].
    now apply grows_by_updated.
  - unfold _update_repo_map, setdefault.
    rewrite Hex, bind_lift_ok, Hhash.
    unfold bind at 1, update at 1. rewrite Hin.
    destruct self as [srcs time m ts]; simpl. split.
    + pose proof (grows_by_setdefault x name m) as H.
      now destruct (repo_get name m).
    + now destruct (repo_get name m).
Qed.

(** Taking a run of [bind] apart. *)
Lemma bind_inv {A B : Type} (c : M A) (k : A -> M B) self b self' :
  bind c k self = (Ok b, self') ->
  exists a self1, c self = (Ok a, self1) /\ k a self1 = (Ok b, self').
Proof.
  unfold bind. destruct (c self) as [[a|e] self1]; [eauto | discriminate].
Qed.

Lemma lift_inv {A : Type} (r : result A) self a self' :
  lift r self = (Ok a, self') -> r = Ok a /\ self' = self.
Proof. unfold lift. intros [= -> ->]. auto. Qed.

Lemma fold_projects_appends_only tenant_name categories :
  respects (appends_only (OVal tenant_name))
           (fold_projects tenant_name categories).
Proof.
  unfold fold_projects.
  respects_steps ltac:(apply update_repo_map_appends_only).
Qed.

(** A record that [parse] went through had every key in place, a name that
    is a string and a non-empty mapping under ["github"]. *)
Lemma parse_record_continue r self self' :
  parse_record r self = (Ok Continue, self') ->
  exists tenant_obj source name github_source categories self1,
    getitem r "tenant" = Ok tenant_obj /\
    getitem tenant_obj "source" = Ok source /\
    getitem tenant_obj "name" = Ok (PStr name) /\
    get source "github" = Ok github_source /\
    truthy github_source = true /\
    items github_source = Ok categories /\
    fold_projects (PStr name) categories self = (Ok tt, self1) /\
    self' = set_tenants
              (tenants self1 ++
               [mkZuulTenant (tenant_id name) name (scrape_time self)])
              self1.
Proof.
  unfold parse_record. intros H.
  apply bind_inv in H as (tenant_obj & s & Ht%lift_inv & H).
  destruct Ht as [Ht ->].
  apply bind_inv in H as (source & s & Hs%lift_inv & H).
  destruct Hs as [Hs ->].
  apply bind_inv in H as (tenant_obj' & s & Ht'%lift_inv & H).
  destruct Ht' as [Ht' ->].
  assert (tenant_obj' = tenant_obj) as -> by congruence.
  apply bind_inv in H as (tenant_name & s & Hn%lift_inv & H).
  destruct Hn as [Hn ->].
  apply bind_inv in H as (github_source & s & Hg%lift_inv & H).
  destruct Hg as [Hg ->].
  destruct (truthy github_source) eqn:Htruthy; simpl in H; [|discriminate].
  apply bind_inv in H as (uuid & s & Hu%lift_inv & H).
  destruct Hu as [Hu ->].
  destruct tenant_name as [ | | | name | | ]; try discriminate.
  injection Hu as <-.
  apply bind_inv in H as (time & s & Htime & H).
  injection Htime as <- <-.
  apply bind_inv in H as (categories & s & Hc%lift_inv & H).
  destruct Hc as [Hc ->].
  apply bind_inv in H as ([] & self1 & Hloop & H).
  injection H as <-.
  exists tenant_obj, source, name, github_source, categories, self1.
  repeat split; assumption.
Qed.

(** C2 as stated does not hold: what goes into ['jobs'] and ['roles'] is not
    the tenant object that goes into the list of tenants. *)
Lemma sequences_do_not_hold_tenant_objects :
  ~ (forall r self self',
       parse_record r self = (Ok Continue, self') ->
       exists t,
         tenants self' = tenants self ++ [t] /\
         grows_by (OTenant t) (repo_map self) (repo_map self')).
Proof.
  intros H.
  destruct (H (single_repo_record "foo" "config-projects" "repo-a")
              (mkParser (PList []) 0 [] []) _
              (parse_single_repo_record _ _ _ _))
    as (t & _ & Hgrows).
  destruct (Hgrows (PStr "repo-a")) as (nj & nr & Hjobs & _).
  vm_compute in Hjobs. destruct nj; discriminate Hjobs.
Qed.

(** C2, amended. For every record [parse] goes through, the element
    appended to ['jobs'] and ['roles'] is the name of the tenant, the string
    found under ["name"]; the tenant object made of identifier, name and
    scrape time is appended to the list of tenants only. *)
Theorem sequences_hold_tenant_names r self self' :
  parse_record r self = (Ok Continue, self') ->
  exists tenant_obj name,
    getitem r "tenant" = Ok tenant_obj /\
    getitem tenant_obj "name" = Ok (PStr name) /\
    tenants self' =
      tenants self ++ [mkZuulTenant (tenant_id name) name (scrape_time self)] /\
    grows_by (OVal (PStr name)) (repo_map self) (repo_map self').
Proof.
  intros H.
  destruct (parse_record_continue _ _ _ H)
    as (tenant_obj & source & name & github_source & categories & self1 &
        Ht & _ & Hn & _ & _ & _ & Hloop & ->).
  exists tenant_obj, name. split; [exact Ht|]. split; [exact Hn|].
  pose proof (fold_projects_appends_only (PStr name) categories self) as Happ.
  rewrite Hloop in Happ. destruct Happ as [Hgrows Hts]. simpl in *.
  destruct self1 as [srcs1 time1 m1 ts1]; simpl in *.
  split; [now rewrite Hts | exact Hgrows].
Qed.

Lemma sequences_hold_tenant_names_witness :
  let r := single_repo_record "foo" "config-projects" "repo-a" in
  let self := mkParser (PList [r]) 42 [] [] in
  exists self',
    parse_record r self = (Ok Continue, self') /\
    exists tenant_obj name,
      getitem r "tenant" = Ok tenant_obj /\
      getitem tenant_obj "name" = Ok (PStr name) /\
      tenants self' =
        tenants self ++ [mkZuulTenant (tenant_id name) name (scrape_time self)] /\
      grows_by (OVal (PStr name)) (repo_map self) (repo_map self').
Proof.
  intros r self. eexists. split.
  - apply parse_single_repo_record.
  - exact (sequences_hold_tenant_names r self _
             (parse_single_repo_record _ _ _ _)).
Defined.

(** ** The loop of [parse]: where it stops *)

Lemma folds_parse_loop_app pre rest self self1 :
  folds pre self self1 ->
  parse_loop (pre ++ rest) self = parse_loop rest self1.
Proof.
  induction 1 as [|r l self self1 self2 Hr _ IH]; [reflexivity|].
  rewrite <- app_comm_cons, parse_loop_cons, Hr. exact IH.
Qed.

Lemma parse_record_break r self tenant_obj source name github_source :
  getitem r "tenant" = Ok tenant_obj ->
  getitem tenant_obj "source" = Ok source ->
  getitem tenant_obj "name" = Ok name ->
  get source "github" = Ok github_source ->
  truthy github_source = false ->
  parse_record r self = (Ok Break, self).
Proof.
  intros Ht Hs Hn Hg Hfalsy. unfold parse_record.
  rewrite Ht, bind_lift_ok, Hs, bind_lift_ok, bind_lift_ok, Hn, bind_lift_ok.
  rewrite Hg, bind_lift_ok, Hfalsy. reflexivity.
Qed.

Lemma parse_loop_break pre r post self :
  (forall self1, parse_record r self1 = (Ok Break, self1)) ->
  parse_loop (pre ++ r :: post) self = parse_loop pre self.
Proof.
  intros Hbreak. revert self.
  induction pre as [|x pre IH]; intros self.
  - simpl app. rewrite parse_loop_cons, Hbreak. reflexivity.
  - rewrite <- app_comm_cons, !parse_loop_cons.
    destruct (parse_record x self) as [[[|]|e] self1]; auto.
Qed.

Lemma blind_ret {A} (a : A) : blind (ret a).
Proof. intros srcs self. reflexivity. Qed.

Lemma blind_lift {A} (r : result A) : blind (lift r).
Proof. intros srcs self. reflexivity. Qed.

Lemma blind_read {A} (field : TenantParser -> A) :
  (forall srcs self, field (with_sources srcs self) = field self) ->
  blind (read field).
Proof. intros Hf srcs self. unfold read. now rewrite Hf. Qed.

Lemma blind_update g :
  (forall srcs self, g (with_sources srcs self) = with_sources srcs (g self)) ->
  blind (update g).
Proof. intros Hg srcs self. unfold update. now rewrite Hg. Qed.

Lemma blind_bind {A B} (c : M A) (k : A -> M B) :
  blind c -> (forall a, blind (k a)) -> blind (bind c k).
Proof.
  intros Hc Hk srcs self. unfold bind. rewrite Hc.
  destruct (c self) as [[a|e] self1]; simpl; [apply Hk | reflexivity].
Qed.

Lemma blind_for_each {A} (body : A -> M unit) l :
  (forall x, blind (body x)) -> blind (for_each body l).
Proof.
  intros Hbody. induction l as [|x l IH]; simpl.
  - apply blind_ret.
  - apply blind_bind; [apply Hbody | intros _; exact IH].
Qed.

Ltac blind_steps known :=
  repeat first
    [ known
    | apply blind_ret
    | apply blind_lift
    | apply blind_read; reflexivity
    | apply blind_update; intros ? ?; reflexivity
    | apply blind_bind; [|intros ?]
    | apply blind_for_each; intros ?
    | match goal with
      | |- blind (if ?b then _ else _) => destruct b
      | |- blind (match ?p with _ => _ end) => destruct p
      end ].

Lemma blind_update_repo_map project tenant :
  blind (_update_repo_map project tenant).
Proof.
  unfold _update_repo_map, setdefault, entry_append.
  blind_steps fail.
  apply blind_update. intros srcs self.
  unfold with_sources, set_repo_map; simpl.
  now destruct (repo_get _ (repo_map self)).
Qed.

Lemma blind_parse_record r : blind (parse_record r).
Proof.
  unfold parse_record. blind_steps ltac:(apply blind_update_repo_map).
Qed.

Lemma blind_parse_loop l : blind (parse_loop l).
Proof.
  induction l as [|r l IH]; simpl.
  - apply blind_ret.
  - blind_steps ltac:(first [apply blind_parse_record | exact IH]).
Qed.

(** The value [parse] returns and the accumulators it leaves, for a list of
    sources. *)
Lemma parse_by_loop l l' time m ts :
  let run := parse (mkParser (PList l) time m ts) in
  let looped := parse_loop l (mkParser (PList l') time m ts) in
  fst run = match fst looped with
            | Ok _ => Ok (repo_map (snd looped), tenants (snd looped))
            | Raise e => Raise e
            end /\
  repo_map (snd run) = repo_map (snd looped) /\
  tenants (snd run) = tenants (snd looped).
Proof.
  intros run looped. subst run looped. rewrite parse_of_list.
  change (mkParser (PList l) time m ts)
    with (with_sources (PList l) (mkParser (PList l') time m ts)).
  rewrite blind_parse_loop.
  destruct (parse_loop l (mkParser (PList l') time m ts)) as [[[]|e] self1];
    simpl; auto.
Qed.

(** The record at which [parse] leaves its loop contributes nothing, and
    neither does any record after it. *)
Lemma parse_stops_at_break pre r post time m ts :
  (forall self, parse_record r self = (Ok Break, self)) ->
  let stopped := parse (mkParser (PList (pre ++ r :: post)) time m ts) in
  let before := parse (mkParser (PList pre) time m ts) in
  (fst stopped = fst before /\
   repo_map (snd stopped) = repo_map (snd before) /\
   tenants (snd stopped) = tenants (snd before)) /\
  (forall self1,
     folds pre (mkParser (PList pre) time m ts) self1 ->
     fst stopped = Ok (repo_map self1, tenants self1)).
Proof.
  intros Hbreak stopped before. subst stopped before.
  destruct (parse_by_loop (pre ++ r :: post) pre time m ts) as (Hv & Hm & Ht).
  destruct (parse_by_loop pre pre time m ts) as (Hv' & Hm' & Ht').
  rewrite parse_loop_break in Hv, Hm, Ht by assumption.
  split.
  - rewrite Hv, Hm, Ht, Hv', Hm', Ht'. auto.
  - intros self1 Hfolds. rewrite Hv.
    pose proof (folds_parse_loop_app pre [] _ _ Hfolds) as Hloop.
    rewrite app_nil_r in Hloop. rewrite Hloop. reflexivity.
Qed.

(** ** C3: a source without ["github"] ends the parse *)

(** C3. If the source of a record has no key ["github"], [parse] gives what
    it gives for the records before that record alone: the same value or
    exception, the same map and the same tenants; the record itself and the
    records after it, whatever they are, add nothing. When the records
    before it all go through, [parse] returns, with the map and the tenants
    they have built. *)
Theorem parse_stops_without_github pre r post time m ts tenant_obj src name :
  getitem r "tenant" = Ok tenant_obj ->
  getitem tenant_obj "source" = Ok (PDict src) ->
  getitem tenant_obj "name" = Ok name ->
  dict_get "github" src = None ->
  let stopped := parse (mkParser (PList (pre ++ r :: post)) time m ts) in
  let before := parse (mkParser (PList pre) time m ts) in
  (fst stopped = fst before /\
   repo_map (snd stopped) = repo_map (snd before) /\
   tenants (snd stopped) = tenants (snd before)) /\
  (forall self1,
     folds pre (mkParser (PList pre) time m ts) self1 ->
     fst stopped = Ok (repo_map self1, tenants self1)).
Proof.
  intros Ht Hs Hn Hg. apply parse_stops_at_break. intros self.
  apply (parse_record_break r self tenant_obj (PDict src) name PNone);
    try assumption; [|reflexivity].
  simpl. now rewrite Hg.
Qed.

Lemma parse_stops_without_github_witness :
  let pre := [single_repo_record "foo" "config-projects" "repo-a"] in
  let post := [single_repo_record "baz" "config-projects" "repo-b"] in
  fst (parse (mkParser (PList (pre ++ no_github_record "bar" :: post)) 0 [] []))
  = fst (parse (mkParser (PList pre) 0 [] [])).
Proof.
  intros pre post.
  exact (proj1 (proj1
    (parse_stops_without_github pre (no_github_record "bar") post 0 [] []
       (PDict [("name", PStr "bar"); ("source", PDict [("gitlab", PDict [])])])
       [("gitlab", PDict [])] (PStr "bar")
       eq_refl eq_refl eq_refl eq_refl))).
Defined.

(** ** C10: a falsy value under ["github"] ends the parse as well *)

(** C10. If the source of a record has a key ["github"] whose value is
    falsy, an empty mapping or [None] in particular, [parse] gives what it
    gives for the records before that record alone, as it does when the key
    is missing. *)
Theorem parse_stops_at_falsy_github pre r post time m ts tenant_obj src name v :
  getitem r "tenant" = Ok tenant_obj ->
  getitem tenant_obj "source" = Ok (PDict src) ->
  getitem tenant_obj "name" = Ok name ->
  dict_get "github" src = Some v ->
  truthy v = false ->
  let stopped := parse (mkParser (PList (pre ++ r :: post)) time m ts) in
  let before := parse (mkParser (PList pre) time m ts) in
  (truthy (PDict []) = false /\ truthy PNone = false) /\
  (fst stopped = fst before /\
   repo_map (snd stopped) = repo_map (snd before) /\
   tenants (snd stopped) = tenants (snd before)) /\
  (forall self1,
     folds pre (mkParser (PList pre) time m ts) self1 ->
     fst stopped = Ok (repo_map self1, tenants self1)).
Proof.
  intros Ht Hs Hn Hg Hfalsy. split; [split; reflexivity|].
  apply parse_stops_at_break. intros self.
  apply (parse_record_break r self tenant_obj (PDict src) name v);
    try assumption.
  simpl. now rewrite Hg.
Qed.

Lemma parse_stops_at_falsy_github_witness :
  let pre := [single_repo_record "foo" "config-projects" "repo-a"] in
  let post := [single_repo_record "baz" "config-projects" "repo-b"] in
  fst (parse (mkParser (PList (pre ++ github_record "bar" (PDict []) :: post))
                       0 [] []))
  = fst (parse (mkParser (PList pre) 0 [] [])).
Proof.
  intros pre post.
  exact (proj1 (proj1 (proj2
    (parse_stops_at_falsy_github pre (github_record "bar" (PDict [])) post
       0 [] []
       (PDict [("name", PStr "bar"); ("source", PDict [("github", PDict [])])])
       [("github", PDict [])] (PStr "bar") (PDict [])
       eq_refl eq_refl eq_refl eq_refl eq_refl)))).
Defined.

(** ** C8: a record with a key missing aborts the parse *)

Lemma parse_record_missing_key r k self :
  missing_key r = Some k -> parse_record r self = (Raise (KeyError k), self).
Proof.
  unfold missing_key, parse_record.
  destruct r as [ | | | | | d]; try discriminate.
  cbn [getitem].
  destruct (dict_get "tenant" d) as [[ | | | | | t]|]; try discriminate.
  - rewrite bind_lift_ok. cbn [getitem].
    destruct (dict_get "source" t) as [source|].
    + rewrite !bind_lift_ok. cbn [getitem].
      destruct (dict_get "name" t) as [name|]; [discriminate|].
      intros [= <-]. reflexivity.
    + intros [= <-]. reflexivity.
  - intros [= <-]. reflexivity.
Qed.

(** C8. When [parse] reaches a record that lacks the key ["tenant"], or
    whose tenant lacks ["source"] or ["name"], it raises the [KeyError] of
    that key: nothing is returned, the record is not skipped and the records
    after it are not looked at. What the records before it have added to
    [self] stays there. *)
Theorem parse_aborts_on_missing_key pre r post time m ts k self1 :
  folds pre (mkParser (PList (pre ++ r :: post)) time m ts) self1 ->
  missing_key r = Some k ->
  parse (mkParser (PList (pre ++ r :: post)) time m ts)
  = (Raise (KeyError k), self1).
Proof.
  intros Hfolds Hmissing.
  rewrite parse_of_list, (folds_parse_loop_app _ _ _ _ Hfolds).
  rewrite parse_loop_cons, (parse_record_missing_key _ _ _ Hmissing).
  reflexivity.
Qed.

Lemma parse_aborts_on_missing_key_witness :
  let pre := [single_repo_record "foo" "config-projects" "repo-a"] in
  let r := PDict [("tenant", PDict [("source", PDict [])])] in
  let post := [single_repo_record "baz" "config-projects" "repo-b"] in
  fst (parse (mkParser (PList (pre ++ r :: post)) 0 [] []))
  = Raise (KeyError "name").
Proof.
  intros pre r post.
  refine (f_equal fst
            (parse_aborts_on_missing_key pre r post 0 [] [] "name" _ _ eq_refl)).
  eapply folds_cons; [apply parse_single_repo_record | apply folds_nil].
Defined.

(** ** C4: the tenants folder is missing *)

(** The template has no replacement field, so [format] returns it as it is,
    whatever the argument. *)
Lemma format_no_tenants_folder name :
  format no_tenants_folder [name] = Ok no_tenants_folder.
Proof. reflexivity. Qed.

Lemma load_without_tenants_folder yaml_load sources_repo msg :
  list_directory sources_repo TENANTS_DIRECTORY = Raise (CheckoutError msg) ->
  _load_tenant_sources_from_repo yaml_load sources_repo
  = Raise (ScraperConfigurationError no_tenants_folder).
Proof.
  intros H. unfold _load_tenant_sources_from_repo.
  now rewrite H, format_no_tenants_folder.
Qed.

(** C4, on the code. For the repository ["orga/tenant-config"] without a
    [tenants] folder, loading raises the configuration error, but its
    message is the template with ['%s'] still in it: [str.format] fills
    [{}] fields only, so the name of the repository is not in the
    message. *)
Theorem missing_folder_message_omits_repo_name yaml_load open_read :
  let sources_repo := empty_checkout "orga/tenant-config" in
  _load_tenant_sources_from_repo yaml_load sources_repo
    = Raise (ScraperConfigurationError no_tenants_folder) /\
  __init__ yaml_load open_read 0 None (Some sources_repo)
    = Raise (ScraperConfigurationError no_tenants_folder) /\
  substring_of (repo_name sources_repo) no_tenants_folder = false /\
  substring_of "'%s'" no_tenants_folder = true.
Proof.
  intros sources_repo. split; [|split; [|split]].
  - now apply (load_without_tenants_folder _ _ TENANTS_DIRECTORY).
  - unfold __init__.
    now rewrite (load_without_tenants_folder _ _ TENANTS_DIRECTORY).
  - vm_compute. reflexivity.
  - vm_compute. reflexivity.
Qed.

(** ** C5: a tenant directory with a file missing *)

Section RepositoryMode.

Variable yaml_load : string -> result pyval.
Variable sources_repo : Repo.

Lemma load_tenant_missing tenant :
  misses_a_file sources_repo tenant = true ->
  tenant_record yaml_load sources_repo tenant = None /\
  exists msg,
    load_tenant yaml_load sources_repo tenant = Raise (CheckoutError msg).
Proof.
  unfold misses_a_file, tenant_record, load_tenant.
  fold (sources_yaml_of sources_repo tenant).
  fold (settings_yaml_of sources_repo tenant).
  destruct (sources_yaml_of sources_repo tenant) as [sources_yaml|[]];
    try discriminate.
  - destruct (settings_yaml_of sources_repo tenant) as [settings_yaml|[]];
      try discriminate.
    intros _. split; [reflexivity|]. simpl. eauto.
  - intros _. split; [reflexivity|]. simpl. eauto.
Qed.

Lemma load_tenant_well tenant :
  loads_well yaml_load sources_repo tenant ->
  exists record,
    tenant_record yaml_load sources_repo tenant = Some record /\
    load_tenant yaml_load sources_repo tenant = Ok record.
Proof.
  intros (sources_yaml & settings_yaml & settings & source &
          Hsrc & Hset & Hyset & Hysrc).
  unfold tenant_record, load_tenant.
  fold (sources_yaml_of sources_repo tenant).
  fold (settings_yaml_of sources_repo tenant).
  rewrite Hsrc, Hset. simpl. rewrite Hyset, Hysrc. simpl. eauto.
Qed.


End RepositoryMode.




(** ** C7: the identifier of a tenant *)

(** The model of SHA-1 against the test vectors of FIPS 180 and the digest
    of a tenant name. *)
Example sha1_empty :
  tenant_id "" = "da39a3ee5e6b4b0d3255bfef95601890afd80709".
Proof. vm_compute. reflexivity. Qed.

Example sha1_abc :
  tenant_id "abc" = "a9993e364706816aba3e25717850c26c9cd0d89d".
Proof. vm_compute. reflexivity. Qed.

Example sha1_two_blocks :
  tenant_id "abcdbcdecdefdefgefghfghighijhijkijkljklmklmnlmnomnopnopq"
  = "84983e441c3bd26ebaae4aa1f95129e5e54670f1".
Proof. vm_compute. reflexivity. Qed.

Example sha1_foo :
  tenant_id "foo" = "0beec7b5ea3f0fdbc95d0dd47f3c5bc275da8a33".
Proof. vm_compute. reflexivity. Qed.

Lemma hexdigit_hex n : In (Sha1.hexdigit n) Sha1.hex_alphabet.
Proof.
  unfold Sha1.hexdigit.
  destruct (nth_in_or_default (Z.to_nat (Z.land n 15)) Sha1.hex_alphabet
              "0"%char) as [H|H]; [exact H|].
  rewrite H. left. reflexivity.
Qed.

Lemma hex32_hex w rest : is_hex_string rest -> is_hex_string (Sha1.hex32 w rest).
Proof.
  intros H. unfold Sha1.hex32. cbn [is_hex_string].
  repeat (split; [apply hexdigit_hex|]). exact H.
Qed.

Lemma hex32_length w rest :
  String.length (Sha1.hex32 w rest) = 8 + String.length rest.
Proof. reflexivity. Qed.

Lemma hexdigest_hex msg : is_hex_string (Sha1.hexdigest msg).
Proof.
  unfold Sha1.hexdigest. cbv zeta. do 5 apply hex32_hex. exact I.
Qed.

Lemma hexdigest_length msg : String.length (Sha1.hexdigest msg) = 40.
Proof.
  unfold Sha1.hexdigest. cbv zeta. rewrite !hex32_length. reflexivity.
Qed.

Lemma in_hex_strings s :
  is_hex_string s -> In s (hex_strings (String.length s)).
Proof.
  induction s as [|c s IH]; cbn [is_hex_string hex_strings String.length].
  - intros _. left. reflexivity.
  - intros [Hc Hs]. apply in_flat_map. exists s.
    split; [now apply IH | now apply (in_map (fun c' => String c' s))].
Qed.

Lemma letters_length k : String.length (letters k) = k.
Proof. induction k as [|k IH]; simpl; congruence. Qed.

(** No function from the numbers into a finite list of values is
    one-to-one. *)
Lemma no_injection_into_list (g : nat -> string) (l : list string) :
  (forall k, In (g k) l) -> ~ (forall i j, g i = g j -> i = j).
Proof.
  intros Hin Hinj.
  assert (Hnodup : List.NoDup (map g (seq 0 (S (length l))))).
  { apply Finite.Injective_map_NoDup; [exact Hinj | apply List.seq_NoDup]. }
  assert (Hincl : incl (map g (seq 0 (S (length l)))) l).
  { intros x Hx. apply in_map_iff in Hx as (k & <- & _). apply Hin. }
  pose proof (List.NoDup_incl_length Hnodup Hincl) as Hlen.
  rewrite List.length_map, List.length_seq in Hlen. lia.
Qed.

(** Names are without bound and identifiers are forty digits: some names
    share their identifier, though none are known. Hence the reservation
    under which identifiers are said to differ. *)
Lemma tenant_id_not_injective :
  ~ (forall n1 n2, tenant_id n1 = tenant_id n2 -> n1 = n2).
Proof.
  intros Hinj.
  apply (no_injection_into_list (fun k => tenant_id (letters k))
                                (hex_strings 40)).
  - intros k. unfold tenant_id.
    pose proof (in_hex_strings _ (hexdigest_hex (Sha1.encode (letters k))))
      as H.
    rewrite hexdigest_length in H. exact H.
  - intros i j Hij. apply Hinj in Hij.
    rewrite <- (letters_length i), <- (letters_length j). now rewrite Hij.
Qed.

(** *** The digest can be read back from the identifier *)

















(** * Further properties of the parser *)

(** ** [parse] only appends *)

Lemma extends_map_refl m : extends_map m m.
Proof. split; [intros k; repeat split; auto | reflexivity]. Qed.

Lemma extends_map_trans m1 m2 m3 :
  extends_map m1 m2 -> extends_map m2 m3 -> extends_map m1 m3.
Proof.
  intros [H12 K12] [H23 K23]. split; [|now transitivity (map fst m2)].
  intros k. destruct (H12 k) as (Hj & Hr & Hs), (H23 k) as (Hj' & Hr' & Hs').
  split; [now transitivity (jobs_of k m2)|].
  split; [now transitivity (roles_of k m2) | auto].
Qed.

Lemma repo_alter_keys g k (m : RepoTenantMap) :
  map fst (repo_alter g k m) = map fst m.
Proof.
  induction m as [|[k' e'] m IH]; simpl; [reflexivity|].
  destruct (key_eqb k k'); simpl; [reflexivity | now rewrite IH].
Qed.

Lemma extends_map_setdefault k (m : RepoTenantMap) :
  extends_map m (match repo_get k m with
                 | Some _ => m
                 | None => m ++ [(k, empty_entry)]
                 end).
Proof.
  destruct (repo_get k m) eqn:Hk; [apply extends_map_refl|].
  split.
  - intros j. unfold jobs_of, roles_of, entry_of. rewrite repo_get_app.
    destruct (repo_get j m) eqn:Hj.
    + repeat split; auto.
    + destruct (key_eqb j k); simpl; repeat split; auto; try apply prefix_nil;
        congruence.
  - rewrite map_app. now apply prefix_app_r.
Qed.

Lemma extends_map_updated name excluded x (m : RepoTenantMap) :
  hashable name = true -> extends_map m (updated_map name excluded x m).
Proof.
  intros Hhash. split.
  - intros j. unfold jobs_of at 2, roles_of at 2, entry_of.
    rewrite repo_get_updated by assumption.
    destruct (key_eqb j name) eqn:Hj; simpl.
    + unfold jobs_of, roles_of, entry_of. rewrite (repo_get_eqb _ _ m Hj).
      repeat split; try (now apply prefix_app_r); congruence.
    + unfold jobs_of, roles_of, entry_of. repeat split; auto.
  - unfold updated_map. destruct excluded; simpl;
      rewrite ?repo_alter_keys; destruct (repo_get name m);
      rewrite ?map_app; try reflexivity; now apply prefix_app_r.
Qed.

#[local] Instance only_appends_refl : Reflexive only_appends.
Proof.
  intros self. split; [apply extends_map_refl|]. repeat split; reflexivity.
Qed.

#[local] Instance only_appends_trans : Transitive only_appends.
Proof.
  intros s1 s2 s3 (M12 & T12 & S12 & C12) (M23 & T23 & S23 & C23).
  split; [eapply extends_map_trans; eassumption|].
  split; [now transitivity (tenants s2)|]. split; congruence.
Qed.

Lemma update_repo_map_only_appends project x :
  respects only_appends (_update_repo_map project x).
Proof.
  intros self.
  destruct (_extract_project project) as [[name exclude]|e] eqn:Hex.
  2:{ unfold _update_repo_map. rewrite Hex. simpl. reflexivity. }
  destruct (hashable name) eqn:Hhash.
  2:{ unfold _update_repo_map, setdefault.
      rewrite Hex, bind_lift_ok, Hhash. simpl. reflexivity. }
  destruct (contains_str "jobs" exclude) as [excluded|e] eqn:Hin.
  - rewrite (update_repo_map_ok _ x self _ _ _ Hex Hhash Hin).
    destruct self as [srcs time m ts]; simpl.
    split; [now apply extends_map_updated | repeat split; reflexivity].
  - unfold _update_repo_map, setdefault.
    rewrite Hex, bind_lift_ok, Hhash.
    unfold bind at 1, update at 1. rewrite Hin.
    destruct self as [srcs time m ts]; simpl.
    pose proof (extends_map_setdefault name m) as H.
    destruct (repo_get name m); simpl;
      (split; [exact H | repeat split; reflexivity]).
Qed.

Lemma parse_record_only_appends r : respects only_appends (parse_record r).
Proof.
  unfold parse_record.
  respects_steps ltac:(apply update_repo_map_only_appends).
  apply respects_update. intros self.
  split; [apply extends_map_refl|]. split; [now apply prefix_app_r|].
  split; reflexivity.
Qed.

Lemma parse_loop_only_appends l : respects only_appends (parse_loop l).
Proof.
  induction l as [|r l IH]; simpl.
  - apply respects_ret; typeclasses eauto.
  - respects_steps ltac:(first [apply parse_record_only_appends | exact IH]).
Qed.

(** X1. Whether it returns or raises, [parse] only appends: the tenants
    [self] held before are the first of those it holds after; every
    sequence of the map before is the start of the sequence under the same
    key after; no entry is removed and the keys keep their order;
    [self.sources] and [self.scrape_time] are not changed. *)
Theorem parse_only_appends self : only_appends self (snd (parse self)).
Proof.
  revert self. change (respects only_appends parse). unfold parse.
  respects_steps ltac:(apply parse_loop_only_appends).
Qed.

(** ** How [_update_repo_map] fails *)

Lemma contains_str_raises k v :
  (exists e, contains_str k v = Raise e) <-> not_iterable v = true.
Proof.
  destruct v; simpl; split; try discriminate; try (intros [e H]; discriminate);
    eauto.
Qed.

(** X2. [_update_repo_map] raises [IndexError] for an empty mapping and
    [TypeError] for a list (unhashable), both before [self] is touched, and
    [TypeError] for a mapping whose ["exclude"] is [None], a number or a
    truth value, after the entry has been looked up or created. Whenever it
    raises, nothing has been appended: the tenants and every ['jobs'] and
    ['roles'] sequence are as they were. *)
Theorem failed_update_appends_nothing project tenant self :
  let run := _update_repo_map project tenant self in
  (project = PDict [] -> run = (Raise IndexError, self)) /\
  (forall l, project = PList l -> run = (Raise TypeError, self)) /\
  (forall repo val rest v,
     project = PDict ((repo, val) :: rest) ->
     dict_get "exclude" ((repo, val) :: rest) = Some v ->
     not_iterable v = true ->
     fst run = Raise TypeError /\
     repo_get (PStr repo) (repo_map (snd run)) <> None) /\
  (forall e self',
     run = (Raise e, self') ->
     tenants self' = tenants self /\
     forall k,
       jobs_of k (repo_map self') = jobs_of k (repo_map self) /\
       roles_of k (repo_map self') = roles_of k (repo_map self)).
Proof.
  intros run. subst run. split; [|split; [|split]].
  - intros ->. reflexivity.
  - intros l ->. reflexivity.
  - intros repo val rest v -> Hex Hv.
    apply contains_str_raises with (k := "jobs") in Hv as [e He].
    assert (e = TypeError) as ->.
    { destruct v; simpl in He; try discriminate; congruence. }
    unfold _update_repo_map, _extract_project. rewrite Hex, bind_lift_ok.
    unfold setdefault. cbn [hashable]. unfold bind at 1, update at 1.
    rewrite He. destruct self as [srcs time m ts]; simpl.
    split; [now destruct (repo_get (PStr repo) m)|].
    destruct (repo_get (PStr repo) m) eqn:Hget; simpl; [congruence|].
    rewrite repo_get_app, Hget. simpl. rewrite String.eqb_refl. discriminate.
  - intros e self' Hrun.
    destruct (_extract_project project) as [[name exclude]|e0] eqn:Hex.
    2:{ unfold _update_repo_map in Hrun. rewrite Hex in Hrun.
        injection Hrun as <- <-. split; [reflexivity | auto]. }
    destruct (hashable name) eqn:Hhash.
    2:{ unfold _update_repo_map, setdefault in Hrun.
        rewrite Hex, bind_lift_ok, Hhash in Hrun. injection Hrun as <- <-.
        split; [reflexivity | auto]. }
    destruct (contains_str "jobs" exclude) as [excluded|e1] eqn:Hin.
    { rewrite (update_repo_map_ok _ tenant self _ _ _ Hex Hhash Hin) in Hrun.
      discriminate. }
    unfold _update_repo_map, setdefault in Hrun.
    rewrite Hex, bind_lift_ok, Hhash in Hrun.
    unfold bind at 1, update at 1 in Hrun. rewrite Hin in Hrun.
    injection Hrun as <- <-.
    destruct self as [srcs time m ts]; simpl. split.
    + now destruct (repo_get name m).
    + intros k. unfold jobs_of, roles_of, entry_of.
      destruct (repo_get name m) eqn:Hk; simpl; [auto|].
      rewrite repo_get_app. destruct (repo_get k m); [auto|].
      now destruct (key_eqb k name).
Qed.

Lemma failed_update_appends_nothing_witness :
  let project := PDict [("repo-a", PNone); ("exclude", PNone)] in
  let run := _update_repo_map project (OVal (PStr "foo"))
               (mkParser (PList []) 0 [] []) in
  fst run = Raise TypeError /\
  repo_get (PStr "repo-a") (repo_map (snd run)) <> None.
Proof.
  intros project run.
  exact (proj1 (proj2 (proj2
    (failed_update_appends_nothing project (OVal (PStr "foo"))
       (mkParser (PList []) 0 [] [])))) "repo-a" PNone [("exclude", PNone)]
       PNone eq_refl eq_refl eq_refl).
Defined.

(** ** The exceptions of [parse] *)

Lemma raises_only_ret {A} P (a : A) : raises_only P (ret a).
Proof. intros self e self' H. discriminate H. Qed.

Lemma raises_only_read {A} P (field : TenantParser -> A) :
  raises_only P (read field).
Proof. intros self e self' H. discriminate H. Qed.

Lemma raises_only_update P g : raises_only P (update g).
Proof. intros self e self' H. discriminate H. Qed.

Lemma raises_only_lift {A} (P : exn -> Prop) (r : result A) :
  (forall e, r = Raise e -> P e) -> raises_only P (lift r).
Proof. intros Hr self e self' [= -> _]. now apply Hr. Qed.

Lemma raises_only_bind {A B} P (c : M A) (k : A -> M B) :
  raises_only P c -> (forall a, raises_only P (k a)) ->
  raises_only P (bind c k).
Proof.
  intros Hc Hk self e self'. unfold bind.
  destruct (c self) as [[a|e0] self1] eqn:Hrun.
  - apply Hk.
  - intros [= <- <-]. eapply Hc, Hrun.
Qed.

Lemma raises_only_for_each {A} P (body : A -> M unit) l :
  (forall x, raises_only P (body x)) -> raises_only P (for_each body l).
Proof.
  intros Hbody. induction l as [|x l IH]; simpl.
  - apply raises_only_ret.
  - apply raises_only_bind; [apply Hbody | intros _; exact IH].
Qed.

(** What the built-in operations raise. *)
Lemma getitem_raises v k e :
  getitem v k = Raise e -> e = KeyError k \/ e = TypeError.
Proof.
  unfold getitem. destruct v; try (intros [= <-]; auto).
  destruct (dict_get k d); [discriminate | intros [= <-]; auto].
Qed.

Lemma get_raises v k e : get v k = Raise e -> e = AttributeError.
Proof. destruct v; simpl; congruence. Qed.

Lemma items_raises v e : items v = Raise e -> e = AttributeError.
Proof. destruct v; simpl; congruence. Qed.

Lemma iter_raises v e : iter v = Raise e -> e = TypeError.
Proof. destruct v; simpl; congruence. Qed.

Lemma sha1_hexdigest_raises v e : sha1_hexdigest v = Raise e -> e = TypeError.
Proof. destruct v; simpl; congruence. Qed.

Lemma contains_str_raises_type k v e :
  contains_str k v = Raise e -> e = TypeError.
Proof. destruct v; simpl; congruence. Qed.

Lemma extract_project_raises project e :
  _extract_project project = Raise e -> e = IndexError.
Proof.
  destruct project as [ | | | | |[|[key val] d]]; simpl; congruence.
Qed.

Ltac raises_steps known :=
  repeat first
    [ known
    | apply raises_only_ret
    | apply raises_only_read
    | apply raises_only_update
    | apply raises_only_bind; [|intros ?]
    | apply raises_only_for_each; intros ?
    | match goal with
      | |- raises_only _ (if ?b then _ else _) => destruct b
      | |- raises_only _ (match ?p with _ => _ end) => destruct p
      end ].

Lemma update_repo_map_raises project tenant :
  raises_only (fun e => e = TypeError \/ e = IndexError)
              (_update_repo_map project tenant).
Proof.
  unfold _update_repo_map, setdefault, entry_append.
  raises_steps fail; apply raises_only_lift; intros e H.
  - right. now apply extract_project_raises in H.
  - left. congruence.
  - left. now apply contains_str_raises_type in H.
Qed.

Lemma fold_projects_raises tenant_name categories :
  raises_only (fun e => e = TypeError \/ e = IndexError)
              (fold_projects tenant_name categories).
Proof.
  unfold fold_projects.
  raises_steps ltac:(apply update_repo_map_raises).
  apply raises_only_lift. intros e H. left. now apply iter_raises in H.
Qed.

(** A record that raises does so either before the loops over its
    projects, with [self] as it was, or within them. *)
Lemma parse_record_raise r self e self' :
  parse_record r self = (Raise e, self') ->
  (self' = self /\ parse_error e) \/
  (exists name categories,
     fold_projects (PStr name) categories self = (Raise e, self') /\
     (e = TypeError \/ e = IndexError)).
Proof.
  unfold parse_record, bind at 1, lift at 1.
  destruct (getitem r "tenant") as [tenant_obj|e0] eqn:Ht.
  2:{ intros [= <- <-]. left. split; [reflexivity|].
      apply getitem_raises in Ht as [->| ->]; simpl; auto. }
  unfold bind at 1, lift at 1.
  destruct (getitem tenant_obj "source") as [source|e0] eqn:Hs.
  2:{ intros [= <- <-]. left. split; [reflexivity|].
      apply getitem_raises in Hs as [->| ->]; simpl; auto. }
  rewrite bind_lift_ok. unfold bind at 1, lift at 1.
  destruct (getitem tenant_obj "name") as [tenant_name|e0] eqn:Hn.
  2:{ intros [= <- <-]. left. split; [reflexivity|].
      apply getitem_raises in Hn as [->| ->]; simpl; auto. }
  unfold bind at 1, lift at 1.
  destruct (get source "github") as [github_source|e0] eqn:Hg.
  2:{ intros [= <- <-]. left. split; [reflexivity|].
      apply get_raises in Hg as ->. exact I. }
  destruct (truthy github_source); simpl; [|discriminate].
  unfold bind at 1, lift at 1.
  destruct (sha1_hexdigest tenant_name) as [uuid|e0] eqn:Hu.
  2:{ intros [= <- <-]. left. split; [reflexivity|].
      apply sha1_hexdigest_raises in Hu as ->. exact I. }
  destruct tenant_name as [ | | | name | | ]; try discriminate.
  unfold bind at 1, read at 1. unfold bind at 1, lift at 1.
  destruct (items github_source) as [categories|e0] eqn:Hc.
  2:{ intros [= <- <-]. left. split; [reflexivity|].
      apply items_raises in Hc as ->. exact I. }
  fold (fold_projects (PStr name) categories). unfold bind at 1.
  destruct (fold_projects (PStr name) categories self)
    as [[[]|e0] self1] eqn:Hloop; [discriminate|].
  intros [= <- <-]. right. exists name, categories.
  split; [exact Hloop|]. exact (fold_projects_raises _ _ _ _ _ Hloop).
Qed.


(** ** A record that fails *)

Lemma parse_record_failing_project name category repo rest self :
  parse_record
    (github_record name
       (PDict [(category, PList (PStr repo :: PDict [] :: rest))])) self =
  (Raise IndexError,
   set_repo_map
     (updated_map (PStr repo) false (OVal (PStr name)) (repo_map self)) self).
Proof.
  unfold parse_record, github_record.
  cbn -[tenant_id _update_repo_map updated_map].
  unfold bind, lift, for_each, ret.
  cbn -[tenant_id _update_repo_map updated_map]. unfold bind.
  rewrite update_plain_project. reflexivity.
Qed.

(** X4. A record that raises never adds its tenant to the list of tenants;
    but the projects it named before the one that failed stay in the map.
    So for a tenant whose second project is an empty mapping: [IndexError]
    is raised, the first repository lists the tenant under ['roles'], and
    the list of tenants is as before. *)
Theorem failed_record_adds_no_tenant :
  (forall r self e self',
     parse_record r self = (Raise e, self') ->
     tenants self' = tenants self) /\
  (forall name category repo rest self,
     exists self',
       parse_record
         (github_record name
            (PDict [(category, PList (PStr repo :: PDict [] :: rest))]))
         self = (Raise IndexError, self') /\
       roles_of (PStr repo) (repo_map self') =
         roles_of (PStr repo) (repo_map self) ++ [OVal (PStr name)] /\
       tenants self' = tenants self).
Proof.
  split.
  - intros r self e self' H.
    destruct (parse_record_raise _ _ _ _ H)
      as [[-> _]|(name & categories & Hloop & _)]; [reflexivity|].
    pose proof (fold_projects_appends_only (PStr name) categories self)
      as [_ Hts].
    now rewrite Hloop in Hts.
  - intros name category repo rest self. eexists.
    split; [apply parse_record_failing_project|].
    destruct self as [srcs time m ts]; simpl.
    split; [now apply roles_of_updated | reflexivity].
Qed.

Lemma failed_record_adds_no_tenant_witness :
  let r := github_record "foo"
             (PDict [("config-projects", PList [PStr "repo-a"; PDict []])]) in
  let self := mkParser (PList [r]) 0 [] [] in
  exists self',
    parse_record r self = (Raise IndexError, self') /\
    tenants self' = tenants self.
Proof.
  intros r self. eexists. split; [apply parse_record_failing_project|].
  exact (proj1 failed_record_adds_no_tenant r self IndexError _
           (parse_record_failing_project _ _ _ _ _)).
Defined.

(** ** What [parse] returns *)

Lemma parse_record_break_inv r self self' :
  parse_record r self = (Ok Break, self') -> self' = self.
Proof.
  unfold parse_record. intros H.
  apply bind_inv in H as (tenant_obj & s & [_ ->]%lift_inv & H).
  apply bind_inv in H as (source & s & [_ ->]%lift_inv & H).
  apply bind_inv in H as (tenant_obj' & s & [_ ->]%lift_inv & H).
  apply bind_inv in H as (tenant_name & s & [_ ->]%lift_inv & H).
  apply bind_inv in H as (github_source & s & [_ ->]%lift_inv & H).
  destruct (truthy github_source); simpl in H; [|unfold ret in H; congruence].
  apply bind_inv in H as (uuid & s & _ & H).
  apply bind_inv in H as (time & s1 & _ & H).
  apply bind_inv in H as (categories & s2 & _ & H).
  apply bind_inv in H as ([] & s3 & _ & H).
  apply bind_inv in H as ([] & s4 & _ & H). discriminate H.
Qed.

(** [parse] returns after it has gone through all records, or through
    those before the first one that makes it leave the loop. *)
Lemma parse_loop_ok l self self1 :
  parse_loop l self = (Ok tt, self1) ->
  exists pre,
    folds pre self self1 /\
    (pre = l \/
     exists r post,
       l = pre ++ r :: post /\ parse_record r self1 = (Ok Break, self1)).
Proof.
  revert self. induction l as [|r l IH]; intros self.
  - intros [= <-]. exists []. split; [constructor | auto].
  - rewrite parse_loop_cons.
    destruct (parse_record r self) as [[[|]|e] self2] eqn:Hr;
      [| |discriminate].
    + intros Hloop. destruct (IH _ Hloop) as (pre & Hfolds & Hend).
      exists (r :: pre). split; [econstructor; eassumption|].
      destruct Hend as [->|(r' & post & -> & Hbreak)]; [now left|].
      right. exists r', post. auto.
    + intros [= <-]. pose proof (parse_record_break_inv _ _ _ Hr) as ->.
      exists []. split; [constructor|]. right. exists r, l. auto.
Qed.

Lemma parse_ok_inv self m ts self' :
  parse self = (Ok (m, ts), self') ->
  exists l,
    iter (sources self) = Ok l /\
    parse_loop l self = (Ok tt, self') /\
    m = repo_map self' /\ ts = tenants self'.
Proof.
  unfold parse, bind, read, lift, ret.
  destruct (iter (sources self)) as [l|e]; [|discriminate].
  destruct (parse_loop l self) as [[[]|e] self1] eqn:Hloop; [|discriminate].
  intros [= <- <- <-]. exists l. auto.
Qed.

Lemma fold_projects_only_appends tenant_name categories :
  respects only_appends (fold_projects tenant_name categories).
Proof.
  unfold fold_projects.
  respects_steps ltac:(apply update_repo_map_only_appends).
Qed.

(** One record that [parse] goes through. *)
Lemma parse_record_continue_state r self self' :
  parse_record r self = (Ok Continue, self') ->
  exists name t,
    tenant_of_record (scrape_time self) r t /\
    tenant_name t = name /\
    grows_by (OVal (PStr name)) (repo_map self) (repo_map self') /\
    tenants self' = tenants self ++ [t] /\
    scrape_time self' = scrape_time self.
Proof.
  intros H.
  destruct (parse_record_continue _ _ _ H)
    as (tenant_obj & source & name & github_source & categories & self1 &
        Ht & _ & Hn & _ & _ & _ & Hloop & ->).
  exists name, (mkZuulTenant (tenant_id name) name (scrape_time self)).
  split; [exists tenant_obj, name; auto|]. split; [reflexivity|].
  pose proof (fold_projects_appends_only (PStr name) categories self)
    as [Hgrows Hts].
  pose proof (fold_projects_only_appends (PStr name) categories self)
    as (_ & _ & _ & Htime).
  rewrite Hloop in Hgrows, Hts, Htime. simpl in Hgrows, Hts, Htime.
  destruct self1 as [srcs1 time1 m1 ts1]; simpl in *.
  split; [exact Hgrows|]. split; [now rewrite Hts | exact Htime].
Qed.

Lemma folds_tenants l self self1 :
  folds l self self1 ->
  scrape_time self1 = scrape_time self /\
  exists new,
    tenants self1 = tenants self ++ new /\
    Forall2 (tenant_of_record (scrape_time self)) l new.
Proof.
  induction 1 as [self|r l self self1 self2 Hr _ IH].
  - split; [reflexivity|]. exists []. rewrite app_nil_r. split; constructor.
  - destruct (parse_record_continue_state _ _ _ Hr)
      as (name & t & Ht & _ & _ & Hts & Htime).
    destruct IH as (Htime' & new & Hnew & Hall).
    split; [congruence|]. exists (t :: new). split.
    + rewrite Hnew, Hts, <- app_assoc. reflexivity.
    + constructor; [exact Ht|]. now rewrite <- Htime.
Qed.

(** X5. When [parse] returns, the tenants it has added are, one for one and
    in order, the tenants of the records it went through: all the records,
    or those before the first record that made it leave the loop. Each of
    them bears the name of its record, the identifier of that name and the
    scrape time of [self]. *)
Theorem tenants_follow_the_records self m ts self' :
  parse self = (Ok (m, ts), self') ->
  exists l pre new,
    iter (sources self) = Ok l /\
    (pre = l \/
     exists r post,
       l = pre ++ r :: post /\ parse_record r self' = (Ok Break, self')) /\
    ts = tenants self ++ new /\
    Forall2 (tenant_of_record (scrape_time self)) pre new.
Proof.
  intros H.
  destruct (parse_ok_inv _ _ _ _ H) as (l & Hiter & Hloop & _ & ->).
  destruct (parse_loop_ok _ _ _ Hloop) as (pre & Hfolds & Hend).
  destruct (folds_tenants _ _ _ Hfolds) as (_ & new & Hnew & Hall).
  exists l, pre, new. auto.
Qed.

Lemma tenants_follow_the_records_witness :
  let l := [single_repo_record "foo" "config-projects" "repo-a";
            no_github_record "bar"] in
  let self := mkParser (PList l) 7 [] [] in
  exists l' pre new,
    iter (sources self) = Ok l' /\
    (pre = l' \/
     exists r post,
       l' = pre ++ r :: post /\
       parse_record r (snd (parse self)) = (Ok Break, snd (parse self))) /\
    tenants (snd (parse self)) = tenants self ++ new /\
    Forall2 (tenant_of_record (scrape_time self)) pre new.
Proof.
  intros l self.
  exact (tenants_follow_the_records self _ _ _ eq_refl).
Defined.

(** ** The map and the list of tenants agree *)

Lemma In_replicate {A : Type} (x y : A) n : In x (replicate n y) -> x = y.
Proof. induction n as [|n IH]; simpl; [tauto | intros [<-|H]; auto]. Qed.

Lemma record_keeps_named r self self' :
  parse_record r self = (Ok Continue, self') ->
  named_by_tenants (repo_map self) (tenants self) ->
  named_by_tenants (repo_map self') (tenants self').
Proof.
  intros Hr Hnamed k e x Hget Hin.
  destruct (parse_record_continue_state _ _ _ Hr)
    as (name & t & _ & Hname & Hgrows & Hts & _).
  destruct (Hgrows k) as (nj & nr & Hjobs & Hroles).
  unfold jobs_of, roles_of, entry_of in Hjobs, Hroles.
  rewrite Hget in Hjobs, Hroles. rewrite Hts.
  assert (Hold : forall y,
    In y (jobs (match repo_get k (repo_map self) with
                | Some e0 => e0 | None => empty_entry end)) \/
    In y (roles (match repo_get k (repo_map self) with
                 | Some e0 => e0 | None => empty_entry end)) ->
    exists t0, In t0 (tenants self ++ [t]) /\ y = OVal (PStr (tenant_name t0))).
  { intros y Hy. destruct (repo_get k (repo_map self)) as [e0|] eqn:Hk.
    - destruct (Hnamed k e0 y Hk Hy) as (t0 & Ht0 & ->).
      exists t0. split; [apply in_or_app; now left | reflexivity].
    - simpl in Hy. tauto. }
  assert (Hnew : forall y n,
    In y (replicate n (OVal (PStr name))) ->
    exists t0, In t0 (tenants self ++ [t]) /\ y = OVal (PStr (tenant_name t0))).
  { intros y n Hy. apply In_replicate in Hy as ->. exists t.
    split; [apply in_or_app; right; now left | now rewrite Hname]. }
  destruct Hin as [Hin|Hin]; [rewrite Hjobs in Hin | rewrite Hroles in Hin];
    apply in_app_or in Hin as [Hin|Hin]; eauto.
Qed.

Lemma folds_keep_named l self self1 :
  folds l self self1 ->
  named_by_tenants (repo_map self) (tenants self) ->
  named_by_tenants (repo_map self1) (tenants self1).
Proof.
  induction 1 as [self|r l self self1 self2 Hr _ IH]; [auto|].
  intros Hnamed. apply IH. eapply record_keeps_named; eassumption.
Qed.

(** X6. When [parse] returns, every element of every ['jobs'] and ['roles']
    sequence of the returned map is the name of a tenant of the returned
    list, provided this was so for what [self] held before, as it is for a
    parser just made. (After an exception this may fail.) *)
Theorem names_in_the_map_have_a_tenant self m ts self' :
  parse self = (Ok (m, ts), self') ->
  named_by_tenants (repo_map self) (tenants self) ->
  named_by_tenants m ts.
Proof.
  intros H Hnamed.
  destruct (parse_ok_inv _ _ _ _ H) as (l & _ & Hloop & -> & ->).
  destruct (parse_loop_ok _ _ _ Hloop) as (pre & Hfolds & _).
  exact (folds_keep_named _ _ _ Hfolds Hnamed).
Qed.

Lemma names_in_the_map_have_a_tenant_witness :
  let self :=
    mkParser (PList [single_repo_record "foo" "config-projects" "repo-a"])
             0 [] [] in
  named_by_tenants (repo_map self) (tenants self) /\
  named_by_tenants (repo_map (snd (parse self))) (tenants (snd (parse self))).
Proof.
  intros self.
  assert (Hnamed : named_by_tenants (repo_map self) (tenants self))
    by (intros k e x Hget; discriminate Hget).
  split; [exact Hnamed|].
  exact (names_in_the_map_have_a_tenant self _ _ _ eq_refl Hnamed).
Defined.

(** ** Calling [parse] again *)

Lemma uniform_ret {A} (a : A) : uniform (ret a).
Proof.
  intros srcs time. exists (Ok a), []. intros self Hs Ht. simpl.
  now rewrite app_nil_r.
Qed.

Lemma uniform_lift {A} (r : result A) : uniform (lift r).
Proof.
  intros srcs time. exists r, []. intros self Hs Ht. simpl.
  now rewrite app_nil_r.
Qed.

Lemma uniform_read_scrape_time : uniform (read scrape_time).
Proof.
  intros srcs time. exists (Ok time), []. intros self Hs Ht. simpl.
  now rewrite app_nil_r, Ht.
Qed.

Lemma uniform_update g new :
  (forall self,
     tenants (g self) = tenants self ++ new /\
     sources (g self) = sources self /\
     scrape_time (g self) = scrape_time self) ->
  uniform (update g).
Proof.
  intros Hg srcs time. exists (Ok tt), new. intros self Hs Ht. simpl.
  destruct (Hg self) as (-> & -> & ->). auto.
Qed.

Lemma uniform_bind {A B} (c : M A) (k : A -> M B) :
  uniform c -> (forall a, uniform (k a)) -> uniform (bind c k).
Proof.
  intros Hc Hk srcs time. destruct (Hc srcs time) as ([a|e] & new & Hc').
  - destruct (Hk a srcs time) as (r' & new' & Hk').
    exists r', (new ++ new'). intros self Hs Ht.
    destruct (Hc' self Hs Ht) as (Hr & Hts & Hs1 & Ht1). unfold bind.
    destruct (c self) as [[a0|e0] self1]; simpl in *; [|discriminate].
    injection Hr as ->.
    destruct (Hk' self1 Hs1 Ht1) as (Hr' & Hts' & Hs2 & Ht2).
    split; [exact Hr'|]. split; [now rewrite Hts', Hts, app_assoc|].
    split; assumption.
  - exists (Raise e), new. intros self Hs Ht.
    destruct (Hc' self Hs Ht) as (Hr & Hts & Hs1 & Ht1). unfold bind.
    destruct (c self) as [[a0|e0] self1]; simpl in *; [discriminate|].
    split; [congruence|]. split; [exact Hts|]. split; assumption.
Qed.

Lemma uniform_for_each {A} (body : A -> M unit) l :
  (forall x, uniform (body x)) -> uniform (for_each body l).
Proof.
  intros Hbody. induction l as [|x l IH]; simpl.
  - apply uniform_ret.
  - apply uniform_bind; [apply Hbody | intros _; exact IH].
Qed.

Ltac uniform_steps known :=
  repeat first
    [ known
    | apply uniform_ret
    | apply uniform_lift
    | apply uniform_read_scrape_time
    | apply uniform_bind; [|intros ?]
    | apply uniform_for_each; intros ?
    | match goal with
      | |- uniform (if ?b then _ else _) => destruct b
      | |- uniform (match ?p with _ => _ end) => destruct p
      end ].

Lemma uniform_update_repo_map project tenant :
  uniform (_update_repo_map project tenant).
Proof.
  unfold _update_repo_map, setdefault, entry_append.
  uniform_steps fail; apply (uniform_update _ []); intros self;
    rewrite app_nil_r; try (split; [|split]; reflexivity).
  now destruct (repo_get _ (repo_map self)).
Qed.

Lemma uniform_parse_record r : uniform (parse_record r).
Proof.
  unfold parse_record. uniform_steps ltac:(apply uniform_update_repo_map).
  eapply uniform_update. intros self. simpl. auto.
Qed.

Lemma uniform_parse_loop l : uniform (parse_loop l).
Proof.
  induction l as [|r l IH]; simpl.
  - apply uniform_ret.
  - uniform_steps ltac:(first [apply uniform_parse_record | exact IH]).
Qed.

(** X7. [parse] does not start afresh: its accumulators are those of
    [self]. Whether it returns or raises is settled by the sources alone;
    so is the list of tenants it appends. A second call on the same object
    therefore ends as the first did, and when the first returned, the
    second returns the tenants of the first followed by the same tenants
    once more. *)
Theorem parse_again_appends_again self :
  (forall m1 ts1 self1,
     parse self = (Ok (m1, ts1), self1) ->
     exists new m2 self2,
       ts1 = tenants self ++ new /\
       parse self1 = (Ok (m2, ts1 ++ new), self2)) /\
  (forall e self1,
     parse self = (Raise e, self1) ->
     exists self2, parse self1 = (Raise e, self2)).
Proof.
  assert (Hsplit : forall s,
    parse s = match iter (sources s) with
              | Ok l =>
                  match parse_loop l s with
                  | (Ok _, s') => (Ok (repo_map s', tenants s'), s')
                  | (Raise e, s') => (Raise e, s')
                  end
              | Raise e => (Raise e, s)
              end).
  { intros s. unfold parse, bind, read, lift, ret.
    destruct (iter (sources s)) as [l|e]; [|reflexivity].
    destruct (parse_loop l s) as [[[]|e] s']; reflexivity. }
  split.
  - intros m1 ts1 self1 H. rewrite Hsplit in H.
    destruct (iter (sources self)) as [l|e] eqn:Hiter; [|discriminate].
    destruct (uniform_parse_loop l (sources self) (scrape_time self))
      as (r & new & Hu).
    destruct (Hu self eq_refl eq_refl) as (Hr & Hts & Hs & Ht).
    destruct (parse_loop l self) as [[[]|e] s'] eqn:Hloop; [|discriminate].
    injection H as <- <- <-. simpl in *. subst r.
    destruct (Hu s' Hs Ht) as (Hr' & Hts' & _ & _).
    exists new. rewrite Hsplit, Hs, Hiter.
    destruct (parse_loop l s') as [[[]|e] s''] eqn:Hloop';
      simpl in *; [|discriminate].
    exists (repo_map s''), s''. split; [exact Hts|]. now rewrite Hts'.
  - intros e self1 H. rewrite Hsplit in H.
    destruct (iter (sources self)) as [l|e0] eqn:Hiter.
    2:{ injection H as <- <-. exists self. now rewrite Hsplit, Hiter. }
    destruct (uniform_parse_loop l (sources self) (scrape_time self))
      as (r & new & Hu).
    destruct (Hu self eq_refl eq_refl) as (Hr & Hts & Hs & Ht).
    destruct (parse_loop l self) as [[[]|e0] s'] eqn:Hloop; [discriminate|].
    injection H as <- <-. simpl in *. subst r.
    destruct (Hu s' Hs Ht) as (Hr' & _ & _ & _).
    rewrite Hsplit, Hs, Hiter.
    destruct (parse_loop l s') as [[[]|e1] s''] eqn:Hloop';
      simpl in *; [discriminate|].
    injection Hr' as ->. eauto.
Qed.

Lemma parse_again_appends_again_witness :
  let self :=
    mkParser (PList [single_repo_record "foo" "config-projects" "repo-a"])
             0 [] [] in
  exists new m2 self2,
    tenants (snd (parse self)) = tenants self ++ new /\
    parse (snd (parse self))
    = (Ok (m2, tenants (snd (parse self)) ++ new), self2).
Proof.
  intros self.
  exact (proj1 (parse_again_appends_again self) _ _ _ eq_refl).
Defined.

(** ** Loading from a repository: what comes back *)

Lemma dict_get_set_eq {V : Type} k (v : V) d :
  dict_get k (dict_set k v d) = Some v.
Proof.
  induction d as [|[k' v'] d IH]; simpl.
  - now rewrite String.eqb_refl.
  - destruct (String.eqb k k') eqn:Hk; simpl; now rewrite Hk.
Qed.

Lemma dict_get_set_ne {V : Type} j k (v : V) d :
  j <> k -> dict_get j (dict_set k v d) = dict_get j d.
Proof.
  intros Hne. apply String.eqb_neq in Hne.
  induction d as [|[k' v'] d IH]; simpl.
  - now rewrite Hne.
  - destruct (String.eqb k k') eqn:Hk; simpl.
    + apply String.eqb_eq in Hk as <-. now rewrite Hne.
    + now rewrite IH.
Qed.

Lemma tenant_record_load_tenant yaml_load sources_repo tenant :
  tenant_record yaml_load sources_repo tenant =
  match load_tenant yaml_load sources_repo tenant with
  | Ok r => Some r
  | Raise _ => None
  end.
Proof.
  unfold tenant_record, load_tenant.
  fold (sources_yaml_of sources_repo tenant).
  fold (settings_yaml_of sources_repo tenant).
  destruct (sources_yaml_of sources_repo tenant) as [sources_yaml|e];
    [|reflexivity].
  destruct (settings_yaml_of sources_repo tenant) as [settings_yaml|e];
    [|reflexivity].
  simpl. destruct (yaml_load settings_yaml) as [settings|e]; [|reflexivity].
  simpl. destruct (yaml_load sources_yaml) as [source|e];
    [|now destruct settings].
  now destruct settings.
Qed.

Lemma tenant_record_shape yaml_load sources_repo tenant r :
  tenant_record yaml_load sources_repo tenant = Some r ->
  record_of_directory yaml_load sources_repo tenant r.
Proof.
  unfold tenant_record.
  destruct (sources_yaml_of sources_repo tenant) as [sources_yaml|e] eqn:Hsrc;
    [|discriminate].
  destruct (settings_yaml_of sources_repo tenant) as [settings_yaml|e]
    eqn:Hset; [|discriminate].
  destruct (yaml_load settings_yaml) as [[ | | | | |settings0]|e] eqn:Hyset;
    try discriminate.
  destruct (yaml_load sources_yaml) as [source|e] eqn:Hysrc; [|discriminate].
  intros [= <-].
  exists sources_yaml, settings_yaml, settings0, source,
         (dict_set "source" source settings0).
  repeat (split; [first [assumption | reflexivity]|]).
  split; [apply dict_get_set_eq | intros k Hk; now apply dict_get_set_ne].
Qed.

Lemma load_tenants_ok yaml_load sources_repo names sources out :
  load_tenants yaml_load sources_repo names sources = Ok out ->
  out = sources ++ omap (tenant_record yaml_load sources_repo) names.
Proof.
  revert sources. induction names as [|tenant names IH]; intros sources.
  - simpl. intros [= <-]. now rewrite app_nil_r.
  - cbn [load_tenants omap list_omap]. rewrite tenant_record_load_tenant.
    destruct (load_tenant yaml_load sources_repo tenant) as [r|[]];
      try discriminate.
    + intros H. rewrite (IH _ H), <- app_assoc. reflexivity.
    + apply IH.
Qed.

Lemma omap_length_le {A B : Type} (g : A -> option B) l :
  length (omap g l) <= length l.
Proof.
  induction l as [|x l IH]; [simpl; lia|].
  cbn [omap list_omap] in *. destruct (g x); cbn [length]; lia.
Qed.

Lemma omap_Forall_In {A B : Type} (g : A -> option B) l :
  List.Forall (fun y => exists x, In x l /\ g x = Some y) (omap g l).
Proof.
  induction l as [|x l IH]; [constructor|]. cbn [omap list_omap] in *.
  assert (IH' : List.Forall
    (fun y => exists x0, (x = x0 \/ In x0 l) /\ g x0 = Some y) (omap g l)).
  { eapply List.Forall_impl; [|exact IH].
    intros y (x0 & Hin & Hg). eauto. }
  destruct (g x) as [y|] eqn:Hg; [|exact IH'].
  constructor; [|exact IH']. exists x. split; [now left | exact Hg].
Qed.

(** What loading from a repository returns, taken apart. *)
Lemma load_from_repo_ok yaml_load sources_repo srcs :
  _load_tenant_sources_from_repo yaml_load sources_repo = Ok srcs ->
  exists tenants l,
    list_directory sources_repo TENANTS_DIRECTORY = Ok tenants /\
    srcs = PList l /\
    l = omap (tenant_record yaml_load sources_repo) (map fst tenants) /\
    length l <= length tenants /\
    List.Forall
      (fun r => exists tenant,
         In tenant (map fst tenants) /\
         record_of_directory yaml_load sources_repo tenant r) l.
Proof.
  unfold _load_tenant_sources_from_repo.
  destruct (list_directory sources_repo TENANTS_DIRECTORY) as [tenants|[]];
    try discriminate.
  destruct (load_tenants yaml_load sources_repo (map fst tenants) [])
    as [out|e] eqn:Hload; [|discriminate].
  simpl. intros [= <-]. apply load_tenants_ok in Hload. simpl in Hload.
  exists tenants, out. split; [reflexivity|]. split; [reflexivity|].
  split; [exact Hload|]. subst out. split.
  - rewrite <- (List.length_map fst tenants). apply omap_length_le.
  - eapply List.Forall_impl; [|apply omap_Forall_In].
    intros r (tenant & Hin & Hrec). exists tenant.
    split; [exact Hin | now apply tenant_record_shape].
Qed.

(** X8. Whatever loading from a repository returns is a list with at most
    one record per directory of the listing, in the order of the listing.
    Each record is made from the two files of one listed directory: it has
    the key ["tenant"], under it a mapping with the key ["source"] whose
    value is the loaded [sources.yaml] (a ["source"] of the settings is
    replaced), and every other key as in the loaded [settings.yaml]. *)
Theorem loaded_records_are_merged yaml_load sources_repo srcs :
  _load_tenant_sources_from_repo yaml_load sources_repo = Ok srcs ->
  exists tenants l,
    list_directory sources_repo TENANTS_DIRECTORY = Ok tenants /\
    srcs = PList l /\
    l = omap (tenant_record yaml_load sources_repo) (map fst tenants) /\
    length l <= length tenants /\
    List.Forall
      (fun r => exists tenant,
         In tenant (map fst tenants) /\
         record_of_directory yaml_load sources_repo tenant r) l.
Proof. apply load_from_repo_ok. Qed.

Lemma loaded_records_are_merged_witness :
  exists tenants l,
    list_directory sample_checkout TENANTS_DIRECTORY = Ok tenants /\
    PList [single_repo_record "bar" "config-projects" "repo-a"] = PList l /\
    l = omap (tenant_record sample_yaml_load sample_checkout)
             (map fst tenants) /\
    length l <= length tenants /\
    List.Forall
      (fun r => exists tenant,
         In tenant (map fst tenants) /\
         record_of_directory sample_yaml_load sample_checkout tenant r) l.
Proof.
  exact (loaded_records_are_merged sample_yaml_load sample_checkout _ eq_refl).
Defined.

(** ** Loading from a repository: what is not skipped *)

Lemma load_tenants_aborts yaml_load sources_repo pre tenant post sources e :
  (forall t, In t pre ->
     misses_a_file sources_repo t = true \/
     loads_well yaml_load sources_repo t) ->
  load_tenant yaml_load sources_repo tenant = Raise e ->
  is_checkout_error e = false ->
  load_tenants yaml_load sources_repo (pre ++ tenant :: post) sources
  = Raise e.
Proof.
  intros Hpre Hraise Hkind. revert sources.
  induction pre as [|t pre IH]; intros sources.
  - simpl. rewrite Hraise. now destruct e.
  - cbn [app load_tenants].
    destruct (Hpre t (or_introl eq_refl)) as [Hmiss|Hwell].
    + destruct (load_tenant_missing yaml_load sources_repo _ Hmiss)
        as (_ & msg & ->).
      apply IH. intros t' Ht'. apply Hpre. now right.
    + destruct (load_tenant_well yaml_load sources_repo _ Hwell)
        as (record & _ & ->).
      apply IH. intros t' Ht'. apply Hpre. now right.
Qed.

(** X9. Only a [CheckoutError] skips a tenant directory. If, for a listed
    directory, reading and merging its two files raises anything else (the
    YAML does not load, or the settings do not load to a mapping, which is
    a [TypeError]), loading as a whole raises that exception, also when all
    directories before it were fine and whatever comes after it. *)
Theorem other_errors_abort_loading yaml_load sources_repo tenants
  pre tenant post e :
  list_directory sources_repo TENANTS_DIRECTORY = Ok tenants ->
  map fst tenants = pre ++ tenant :: post ->
  (forall t, In t pre ->
     misses_a_file sources_repo t = true \/
     loads_well yaml_load sources_repo t) ->
  load_tenant yaml_load sources_repo tenant = Raise e ->
  is_checkout_error e = false ->
  _load_tenant_sources_from_repo yaml_load sources_repo = Raise e.
Proof.
  intros Hlist Hnames Hpre Hraise Hkind.
  unfold _load_tenant_sources_from_repo. rewrite Hlist, Hnames.
  now rewrite (load_tenants_aborts _ _ _ _ _ _ _ Hpre Hraise Hkind).
Qed.

Lemma other_errors_abort_loading_witness :
  _load_tenant_sources_from_repo broken_yaml_load broken_checkout
  = Raise TypeError.
Proof.
  refine (other_errors_abort_loading broken_yaml_load broken_checkout
            [("bar", PNone); ("baz", PNone)] ["bar"] "baz" [] TypeError
            eq_refl eq_refl _ eq_refl eq_refl).
  intros t [<-|[]]. right.
  exists "github: {config-projects: [repo-a]}", "name: bar",
         [("name", PStr "bar")],
         (PDict [("github",
                  PDict [("config-projects", PList [PStr "repo-a"])])]).
  repeat split; reflexivity.
Defined.

(** ** The paths of the two files *)

Lemma list_ascii_of_string_app a b :
  list_ascii_of_string (a +:+ b) =
  list_ascii_of_string a ++ list_ascii_of_string b.
Proof. induction a as [|c a IH]; simpl; [reflexivity | now rewrite IH]. Qed.

Lemma endswith_sep_app a b :
  b <> EmptyString -> endswith_sep (a +:+ b) = endswith_sep b.
Proof.
  intros Hb. unfold endswith_sep.
  rewrite list_ascii_of_string_app, rev_app_distr.
  destruct b as [|c b]; [contradiction|]. simpl list_ascii_of_string.
  destruct (rev (c :: list_ascii_of_string b)) as [|x xs] eqn:Hrev;
    [|reflexivity].
  apply (f_equal (@length ascii)) in Hrev.
  rewrite length_rev in Hrev. discriminate Hrev.
Qed.

(** X10. For a directory name that does not start with a slash, the file
    looked for is [tenants/<name>/<file>], or [tenants/<file>] when the name
    is empty. A name that starts with a slash leaves the [tenants] folder:
    the path is then [<name>/<file>]. In both cases no second slash is put
    after a name that ends with one. *)
Theorem tenant_file_path tenant file :
  startswith "/" file = false ->
  let tail := if endswith_sep tenant then file else "/" +:+ file in
  (tenant = EmptyString ->
   path_join "tenants" [tenant; file] = "tenants/" +:+ file) /\
  (startswith "/" tenant = true ->
   path_join "tenants" [tenant; file] = tenant +:+ tail) /\
  (tenant <> EmptyString -> startswith "/" tenant = false ->
   path_join "tenants" [tenant; file] = "tenants/" +:+ tenant +:+ tail).
Proof.
  intros Hfile tail. subst tail. unfold path_join. cbn [fold_left].
  rewrite Hfile. split; [|split].
  - intros ->. reflexivity.
  - intros Hslash. rewrite Hslash.
    destruct tenant as [|c tenant]; [discriminate|].
    change (String.eqb (String c tenant) "") with false.
    now destruct (endswith_sep (String c tenant)).
  - intros Hne Hslash. rewrite Hslash.
    change (String.eqb "tenants" "" || endswith_sep "tenants") with false.
    cbv iota.
    change ("tenants" +:+ "/" +:+ tenant) with ("tenants/" +:+ tenant).
    rewrite (endswith_sep_app "tenants/" tenant Hne).
    change (String.eqb ("tenants/" +:+ tenant) "") with false.
    now destruct (endswith_sep tenant).
Qed.

Lemma tenant_file_path_witness :
  path_join "tenants" ["foo"; "sources.yaml"] = "tenants/foo/sources.yaml" /\
  path_join "tenants" ["/a/"; "sources.yaml"] = "/a/sources.yaml".
Proof.
  split.
  - exact (proj2 (proj2 (tenant_file_path "foo" "sources.yaml" eq_refl))
             ltac:(discriminate) eq_refl).
  - exact (proj1 (proj2 (tenant_file_path "/a/" "sources.yaml" eq_refl))
             eq_refl).
Defined.

(** ** Every project of a record is recorded *)

Lemma grows_by_In x m m' k y :
  grows_by x m m' ->
  (In y (jobs_of k m) -> In y (jobs_of k m')) /\
  (In y (roles_of k m) -> In y (roles_of k m')).
Proof.
  intros H. destruct (H k) as (nj & nr & -> & ->).
  split; intros Hy; apply in_or_app; now left.
Qed.

(** A project that [_update_repo_map] accepts for the tenant [x]. *)
Lemma recorded_after_update project x self self' :
  _update_repo_map project x self = (Ok tt, self') ->
  exists name exclude excluded,
    _extract_project project = Ok (name, exclude) /\
    contains_str "jobs" exclude = Ok excluded /\
    In x (roles_of name (repo_map self')) /\
    (excluded = false -> In x (jobs_of name (repo_map self'))).
Proof.
  intros H.
  destruct (update_repo_map_inv _ _ _ _ H)
    as (name & exclude & excluded & Hex & Hhash & Hin & ->).
  exists name, exclude, excluded. split; [exact Hex|]. split; [exact Hin|].
  destruct self as [srcs time m ts]; simpl.
  rewrite roles_of_updated, jobs_of_updated by assumption.
  split; [apply in_or_app; right; now left|].
  intros ->. apply in_or_app; right; now left.
Qed.

Lemma recorded_after_projects x l self self' :
  for_each (fun project => _update_repo_map project x) l self = (Ok tt, self') ->
  forall project, In project l ->
    exists name exclude excluded,
      _extract_project project = Ok (name, exclude) /\
      contains_str "jobs" exclude = Ok excluded /\
      In x (roles_of name (repo_map self')) /\
      (excluded = false -> In x (jobs_of name (repo_map self'))).
Proof.
  revert self. induction l as [|p l IH]; intros self Hrun project Hin;
    [destruct Hin|].
  simpl in Hrun. apply bind_inv in Hrun as ([] & self1 & Hp & Hrest).
  destruct Hin as [<-|Hin]; [|eapply IH; eassumption].
  destruct (recorded_after_update _ _ _ _ Hp)
    as (name & exclude & excluded & Hex & Hc & Hroles & Hjobs).
  exists name, exclude, excluded. split; [exact Hex|]. split; [exact Hc|].
  assert (Hgrows : grows_by x (repo_map self1) (repo_map self')).
  { pose proof (respects_for_each (appends_only x)
                  (fun project => _update_repo_map project x) l
                  (fun p' => update_repo_map_appends_only p' x) self1)
      as [Hg _].
    now rewrite Hrest in Hg. }
  destruct (grows_by_In x _ _ name x Hgrows) as [Hj Hr]. auto.
Qed.

Lemma recorded_after_categories tenant_name categories self self' :
  fold_projects tenant_name categories self = (Ok tt, self') ->
  forall category projects, In (category, projects) categories ->
    exists l,
      iter projects = Ok l /\
      forall project, In project l ->
        exists name exclude excluded,
          _extract_project project = Ok (name, exclude) /\
          contains_str "jobs" exclude = Ok excluded /\
          In (OVal tenant_name) (roles_of name (repo_map self')) /\
          (excluded = false ->
           In (OVal tenant_name) (jobs_of name (repo_map self'))).
Proof.
  unfold fold_projects. revert self.
  induction categories as [|[c ps] categories IH];
    intros self Hrun category projects Hin; [destruct Hin|].
  simpl in Hrun. apply bind_inv in Hrun as ([] & self1 & Hc & Hrest).
  destruct Hin as [[= <- <-]|Hin]; [|eapply IH; eassumption].
  apply bind_inv in Hc as (l & s & [Hiter ->]%lift_inv & Hl).
  exists l. split; [exact Hiter|]. intros project Hproject.
  destruct (recorded_after_projects _ _ _ _ Hl project Hproject)
    as (name & exclude & excluded & Hex & Hcs & Hroles & Hjobs).
  exists name, exclude, excluded. split; [exact Hex|]. split; [exact Hcs|].
  assert (Hgrows : grows_by (OVal tenant_name) (repo_map self1)
                            (repo_map self')).
  { pose proof (fold_projects_appends_only tenant_name categories self1)
      as [Hg _].
    unfold fold_projects in Hg. now rewrite Hrest in Hg. }
  destruct (grows_by_In _ _ _ name (OVal tenant_name) Hgrows) as [Hj Hr].
  auto.
Qed.

(** X11. After a record has been gone through, every project named under
    any category of its ["github"] mapping has the tenant in the ['roles']
    of its repository, and in the ['jobs'] as well unless its exclusion
    list contains ["jobs"]. *)
Theorem every_project_lists_the_tenant r self self' :
  parse_record r self = (Ok Continue, self') ->
  exists tenant_obj source name github_source categories,
    getitem r "tenant" = Ok tenant_obj /\
    getitem tenant_obj "source" = Ok source /\
    getitem tenant_obj "name" = Ok (PStr name) /\
    get source "github" = Ok github_source /\
    items github_source = Ok categories /\
    forall category projects, In (category, projects) categories ->
      exists l,
        iter projects = Ok l /\
        forall project, In project l ->
          exists repo exclude excluded,
            _extract_project project = Ok (repo, exclude) /\
            contains_str "jobs" exclude = Ok excluded /\
            In (OVal (PStr name)) (roles_of repo (repo_map self')) /\
            (excluded = false ->
             In (OVal (PStr name)) (jobs_of repo (repo_map self'))).
Proof.
  intros H.
  destruct (parse_record_continue _ _ _ H)
    as (tenant_obj & source & name & github_source & categories & self1 &
        Ht & Hs & Hn & Hg & _ & Hc & Hloop & ->).
  exists tenant_obj, source, name, github_source, categories.
  repeat (split; [assumption|]).
  intros category projects Hin.
  destruct self1 as [srcs1 time1 m1 ts1].
  exact (recorded_after_categories _ _ _ _ Hloop category projects Hin).
Qed.

Lemma every_project_lists_the_tenant_witness :
  let r := single_repo_record "foo" "config-projects" "repo-a" in
  let self := mkParser (PList [r]) 0 [] [] in
  exists self',
    parse_record r self = (Ok Continue, self') /\
    In (OVal (PStr "foo")) (roles_of (PStr "repo-a") (repo_map self')).
Proof.
  intros r self. eexists. split; [apply parse_single_repo_record|].
  destruct (every_project_lists_the_tenant r self _
              (parse_single_repo_record _ _ _ _))
    as (tenant_obj & source & name & github_source & categories &
        Ht & Hs & Hn & Hg & Hc & Hall).
  injection Ht as <-. injection Hn as <-. injection Hs as <-.
  injection Hg as <-. injection Hc as <-.
  destruct (Hall "config-projects" (PList [PStr "repo-a"])
              (or_introl eq_refl)) as (l & Hiter & Hl).
  injection Hiter as <-.
  destruct (Hl (PStr "repo-a") (or_introl eq_refl))
    as (repo & exclude & excluded & Hex & _ & Hroles & _).
  injection Hex as <- _. exact Hroles.
Defined.

(** ** A repository named more than once *)

Lemma same_project_again n repo x self :
  exists self',
    for_each (fun project => _update_repo_map project x)
             (replicate n (PStr repo)) self = (Ok tt, self') /\
    jobs_of (PStr repo) (repo_map self') =
      jobs_of (PStr repo) (repo_map self) ++ replicate n x /\
    roles_of (PStr repo) (repo_map self') =
      roles_of (PStr repo) (repo_map self) ++ replicate n x /\
    tenants self' = tenants self /\
    scrape_time self' = scrape_time self.
Proof.
  revert self. induction n as [|n IH]; intros self.
  - exists self. simpl. now rewrite !app_nil_r.
  - destruct (IH (set_repo_map
                    (updated_map (PStr repo) false x (repo_map self)) self))
      as (self' & Hrun & Hjobs & Hroles & Hts & Htime).
    exists self'. cbn [replicate for_each]. unfold bind at 1.
    rewrite update_plain_project. split; [exact Hrun|].
    rewrite Hjobs, Hroles, Hts, Htime.
    destruct self as [srcs time m ts]; simpl.
    rewrite roles_of_updated, jobs_of_updated by reflexivity.
    now rewrite <- !app_assoc.
Qed.

Lemma for_each_one {A : Type} (body : A -> M unit) x self :
  for_each body [x] self =
  match body x self with
  | (Ok _, self') => (Ok tt, self')
  | (Raise e, self') => (Raise e, self')
  end.
Proof.
  simpl. unfold bind. destruct (body x self) as [[[]|e] self']; reflexivity.
Qed.

(** X12. Nothing is deduplicated: a tenant that names the same repository
    [n] times under a category gets its name appended [n] times to the
    ['jobs'] and to the ['roles'] of that repository. With [n = 0] the
    tenant names no repository at all and is still added to the list of
    tenants. *)
Theorem repeated_project_is_recorded_each_time n name category repo self :
  exists self',
    parse_record
      (github_record name
         (PDict [(category, PList (replicate n (PStr repo)))])) self
    = (Ok Continue, self') /\
    jobs_of (PStr repo) (repo_map self') =
      jobs_of (PStr repo) (repo_map self) ++ replicate n (OVal (PStr name)) /\
    roles_of (PStr repo) (repo_map self') =
      roles_of (PStr repo) (repo_map self) ++ replicate n (OVal (PStr name)) /\
    tenants self' =
      tenants self ++ [mkZuulTenant (tenant_id name) name (scrape_time self)].
Proof.
  destruct (same_project_again n repo (OVal (PStr name)) self)
    as (self1 & Hrun & Hjobs & Hroles & Hts & Htime).
  exists (set_tenants
            (tenants self1 ++
             [mkZuulTenant (tenant_id name) name (scrape_time self)]) self1).
  split.
  - unfold parse_record, github_record.
    cbn -[tenant_id _update_repo_map replicate for_each].
    unfold bind at 1. rewrite for_each_one. cbv beta iota.
    cbn [iter]. rewrite bind_lift_ok, Hrun. reflexivity.
  - destruct self1 as [srcs1 time1 m1 ts1]; simpl in *.
    now rewrite Hjobs, Hroles, Hts.
Qed.

(** ** Repositories do not interfere *)

(** X13. The order in which two different repositories are named does not
    matter for what is found in the map: recording [repo1] for one tenant
    and then [repo2] for another leaves every key with the same entry as
    recording them the other way round. *)
Theorem different_repositories_commute repo1 repo2 x1 x2 self :
  repo1 <> repo2 ->
  let first_then_second :=
    snd (_update_repo_map (PStr repo2) x2
           (snd (_update_repo_map (PStr repo1) x1 self))) in
  let second_then_first :=
    snd (_update_repo_map (PStr repo1) x1
           (snd (_update_repo_map (PStr repo2) x2 self))) in
  forall k,
    repo_get k (repo_map first_then_second) =
    repo_get k (repo_map second_then_first).
Proof.
  intros Hne s12 s21 k. subst s12 s21.
  rewrite !update_plain_project. destruct self as [srcs time m ts]; simpl.
  assert (H12 : key_eqb (PStr repo1) (PStr repo2) = false)
    by (simpl; now apply String.eqb_neq).
  assert (H21 : key_eqb (PStr repo2) (PStr repo1) = false)
    by (rewrite key_eqb_sym; exact H12).
  rewrite !repo_get_updated by reflexivity.
  unfold jobs_of, roles_of, entry_of.
  rewrite !repo_get_updated by reflexivity. rewrite H12, H21.
  destruct (key_eqb k (PStr repo1)) eqn:H1, (key_eqb k (PStr repo2)) eqn:H2;
    try reflexivity.
  rewrite (key_eqb_eq_l _ _ (PStr repo2) H1) in H2. congruence.
Qed.

Lemma different_repositories_commute_witness :
  let self := mkParser (PList []) 0 [] [] in
  repo_get (PStr "repo-a") (repo_map
    (snd (_update_repo_map (PStr "repo-b") (OVal (PStr "bar"))
            (snd (_update_repo_map (PStr "repo-a") (OVal (PStr "foo"))
                    self))))) =
  repo_get (PStr "repo-a") (repo_map
    (snd (_update_repo_map (PStr "repo-a") (OVal (PStr "foo"))
            (snd (_update_repo_map (PStr "repo-b") (OVal (PStr "bar"))
                    self))))).
Proof.
  intros self.
  exact (different_repositories_commute "repo-a" "repo-b"
           (OVal (PStr "foo")) (OVal (PStr "bar")) self ltac:(discriminate)
           (PStr "repo-a")).
Defined.

(** ** A sources file without records *)

(** X14. A sources file that loads to [None], as an empty document does,
    makes a parser whose [parse] raises [TypeError], since [None] cannot be
    iterated; a file that loads to an empty list makes a parser whose
    [parse] returns an empty map and no tenants. In file mode the
    repository is not looked at. *)
Theorem sources_file_without_records yaml_load open_read time file text
  sources_repo :
  file <> EmptyString ->
  open_read file = Ok text ->
  (yaml_load text = Ok PNone ->
   exists self,
     __init__ yaml_load open_read time (Some file) sources_repo = Ok self /\
     parse self = (Raise TypeError, self)) /\
  (yaml_load text = Ok (PList []) ->
   exists self,
     __init__ yaml_load open_read time (Some file) sources_repo = Ok self /\
     parse self = (Ok ([], []), self)).
Proof.
  intros Hfile Hopen. apply String.eqb_neq in Hfile.
  unfold __init__, _load_tenant_sources_from_file.
  rewrite Hfile, Hopen. simpl negb. cbv iota.
  split; intros ->; eexists; split; reflexivity.
Qed.

Lemma sources_file_without_records_witness :
  exists self,
    __init__ (fun _ => Ok PNone) (fun _ => Ok "") 0 (Some "tenants.yaml") None
    = Ok self /\
    parse self = (Raise TypeError, self).
Proof.
  exact (proj1 (sources_file_without_records
                  (fun _ => Ok PNone) (fun _ => Ok "") 0 "tenants.yaml" ""
                  None ltac:(discriminate) eq_refl) eq_refl).
Defined.

(** ** Loading from a repository, then parsing *)

Lemma raises_only_weaken {A} (P Q : exn -> Prop) (c : M A) :
  (forall e, P e -> Q e) -> raises_only P c -> raises_only Q c.
Proof. intros HPQ Hc self e self' H. eapply HPQ, Hc, H. Qed.

(** A [KeyError] of a record tells which key the record lacks. *)
Lemma parse_record_key_error r self k self' :
  parse_record r self = (Raise (KeyError k), self') ->
  missing_key r = Some k.
Proof.
  unfold parse_record, missing_key.
  destruct r as [ | | | | |d]; try discriminate.
  cbn [getitem].
  destruct (dict_get "tenant" d) as [[ | | | | |t]|]; try discriminate.
  2:{ intros [= <-]. reflexivity. }
  rewrite bind_lift_ok. cbn [getitem].
  destruct (dict_get "source" t) as [source|]; [|intros [= <-]; reflexivity].
  rewrite !bind_lift_ok. cbn [getitem].
  destruct (dict_get "name" t) as [name|]; [|intros [= <-]; reflexivity].
  rewrite bind_lift_ok. intros H. exfalso.
  match type of H with
  | ?c _ = _ =>
      assert (Hrest : raises_only
                (fun e => e = TypeError \/ e = IndexError \/ e = AttributeError)
                c)
  end.
  { raises_steps ltac:(first
      [ apply (raises_only_weaken _ _ _
                 (fun e (He : e = TypeError \/ e = IndexError) =>
                    match He with
                    | or_introl H1 => or_introl H1
                    | or_intror H2 => or_intror (or_introl H2)
                    end)
                 (update_repo_map_raises _ _)) ]);
      apply raises_only_lift; intros e He.
    - apply get_raises in He. auto.
    - apply sha1_hexdigest_raises in He. auto.
    - apply items_raises in He. auto.
    - apply iter_raises in He. auto. }
  destruct (Hrest _ _ _ H) as [He|[He|He]]; discriminate He.
Qed.

Lemma parse_loop_key_error l self k self' :
  parse_loop l self = (Raise (KeyError k), self') ->
  exists r, In r l /\ missing_key r = Some k.
Proof.
  revert self. induction l as [|r l IH]; intros self; [discriminate|].
  rewrite parse_loop_cons.
  destruct (parse_record r self) as [[[|]|e] self1] eqn:Hr.
  - intros H. destruct (IH _ H) as (r' & Hin & Hk). exists r'. split; auto.
    now right.
  - discriminate.
  - intros [= -> <-]. exists r. split; [now left|].
    exact (parse_record_key_error _ _ _ _ Hr).
Qed.

Lemma record_of_directory_keys yaml_load sources_repo tenant r :
  record_of_directory yaml_load sources_repo tenant r ->
  missing_key r = None \/ missing_key r = Some "name".
Proof.
  intros (sources_yaml & settings_yaml & settings0 & source & settings &
          _ & _ & _ & _ & Ht & Hs & _).
  unfold missing_key. destruct r as [ | | | | |d]; try discriminate.
  cbn [getitem] in Ht. destruct (dict_get "tenant" d) as [v|]; [|discriminate].
  injection Ht as ->. rewrite Hs.
  destruct (dict_get "name" settings); auto.
Qed.

(** X15. Records loaded from a repository always have the keys ["tenant"]
    and ["source"]: a parser made from them never raises the [KeyError] of
    either key; the only key that can be missing is ["name"], when the
    settings of a tenant have none. *)
Theorem loaded_sources_have_tenant_and_source yaml_load sources_repo srcs :
  _load_tenant_sources_from_repo yaml_load sources_repo = Ok srcs ->
  forall time m ts e self',
    parse (mkParser srcs time m ts) = (Raise e, self') ->
    e <> KeyError "tenant" /\ e <> KeyError "source".
Proof.
  intros Hload time m ts e self' Hparse.
  destruct (load_from_repo_ok _ _ _ Hload)
    as (tenants & l & _ & -> & _ & _ & Hall).
  rewrite parse_of_list in Hparse.
  destruct (parse_loop l _) as [[[]|e0] self1] eqn:Hloop; [discriminate|].
  injection Hparse as <- <-.
  assert (Hkey : forall k, e0 = KeyError k -> k = "name").
  { intros k ->. destruct (parse_loop_key_error _ _ _ _ Hloop)
      as (r & Hin & Hk).
    rewrite List.Forall_forall in Hall.
    destruct (Hall r Hin) as (tenant & _ & Hrec).
    destruct (record_of_directory_keys _ _ _ _ Hrec) as [Hnone|Hname];
      congruence. }
  split; intros ->; specialize (Hkey _ eq_refl); discriminate Hkey.
Qed.

Lemma loaded_sources_have_tenant_and_source_witness :
  exists srcs self',
    _load_tenant_sources_from_repo nameless_yaml_load nameless_checkout
    = Ok srcs /\
    parse (mkParser srcs 0 [] []) = (Raise (KeyError "name"), self') /\
    KeyError "name" <> KeyError "tenant" /\
    KeyError "name" <> KeyError "source".
Proof.
  eexists. eexists. split; [reflexivity|]. split; [reflexivity|].
  exact (loaded_sources_have_tenant_and_source
           nameless_yaml_load nameless_checkout _ eq_refl
           0 [] [] (KeyError "name") _ eq_refl).
Defined.

(** ** Errors that leave [self] alone *)

(** X3. A [KeyError] or an [AttributeError] from a record comes from the
    lookups made before anything is recorded: [self] is then exactly as it
    was before that record, and a [KeyError] names the first of the keys
    ["tenant"], ["source"], ["name"] that the record lacks. *)
Theorem lookup_errors_leave_self_alone r self e self' :
  parse_record r self = (Raise e, self') ->
  e = AttributeError \/ (exists k, e = KeyError k) ->
  self' = self /\ (forall k, e = KeyError k -> missing_key r = Some k).
Proof.
  intros H Hkind. split.
  - destruct (parse_record_raise _ _ _ _ H)
      as [[-> _]|(name & categories & _ & [->| ->])]; [reflexivity | |];
      destruct Hkind as [Hk|[k Hk]]; discriminate Hk.
  - intros k ->. exact (parse_record_key_error _ _ _ _ H).
Qed.

Lemma lookup_errors_leave_self_alone_witness :
  let r := PDict [("tenant", PDict [("name", PStr "foo")])] in
  let self := mkParser (PList [r]) 0 [] [] in
  parse_record r self = (Raise (KeyError "source"), self) /\
  missing_key r = Some "source".
Proof.
  intros r self. split; [reflexivity|].
  exact (proj2 (lookup_errors_leave_self_alone r self (KeyError "source") self
                  eq_refl (or_intror (ex_intro _ "source" eq_refl)))
           "source" eq_refl).
Defined.
